(** * braingeneers.drylab: a shallow embedding of the simulation kernel

    The Python module [braingeneers/drylab.py] simulates a population of
    coupled spiking neurons ([Organoid]) and a diffusing charge field
    ([ChargedMedium]).  This development embeds the numeric backends, the
    method [Organoid.step] with its derivative function [VUAdot], and the
    methods of [ChargedMedium], and proves properties of them.

    Arithmetic.  The arrays of the program hold IEEE floating-point numbers.
    They are embedded as lists of rationals [Q], so every statement below is
    about the program in exact arithmetic: rounding, overflow, infinities
    and NaN are outside the model.  Division by zero yields [0] in [Q]; no
    theorem below depends on the value of such a quotient.

    Arrays.  A one-dimensional array is a [list Q], a two-dimensional array
    the list of its rows, a boolean mask a [list bool].  An in-place masked
    assignment [x[m] = y[m]] is rendered by [where_ m y x], the array that
    agrees with [y] where [m] holds and with [x] elsewhere.  NumPy raises on
    arrays whose shapes do not agree; the shape conditions are collected in
    the predicates [wf] and stated as hypotheses where they matter. *)

From Stdlib Require Import String QArith Qabs ZArith List Bool Lia.
Import ListNotations.
Open Scope Q_scope.

(** ** Arrays *)

Abbreviation vec := (list Q) (only parsing).
Abbreviation mat := (list (list Q)) (only parsing).
Abbreviation mask := (list bool) (only parsing).

Fixpoint map2 {A B C : Type} (f : A -> B -> C) (xs : list A) (ys : list B)
  : list C :=
  match xs, ys with
  | x :: xs', y :: ys' => f x y :: map2 f xs' ys'
  | _, _ => []
  end.

(** [where_ m xs ys]: [xs] at the positions selected by [m], [ys] elsewhere.
    The result has the shape of [ys], the array assigned to. *)
Fixpoint where_ (m : mask) (xs ys : vec) : vec :=
  match ys with
  | [] => []
  | y :: ys' =>
      match m, xs with
      | b :: m', x :: xs' => (if b then x else y) :: where_ m' xs' ys'
      | _, _ => ys
      end
  end.

(** Elementwise operations on arrays of one shape, and with a scalar. *)
Definition vadd (x y : vec) : vec := map2 Qplus x y.
Definition vsub (x y : vec) : vec := map2 Qminus x y.
Definition vmul (x y : vec) : vec := map2 Qmult x y.
Definition vdiv (x y : vec) : vec := map2 Qdiv x y.
Definition vneg (x : vec) : vec := map Qopp x.
Definition vscale (s : Q) (x : vec) : vec := map (fun e => s * e) x.
Definition vtimes (x : vec) (s : Q) : vec := map (fun e => e * s) x.
Definition vover (x : vec) (s : Q) : vec := map (fun e => e / s) x.
Definition vplus (x : vec) (s : Q) : vec := map (fun e => e + s) x.
Definition vge (x y : vec) : mask := map2 (fun a b => Qle_bool b a) x y.
Definition vgt (x y : vec) : mask :=
  map2 (fun a b => negb (Qle_bool a b)) x y.

Definition madd (x y : mat) : mat := map2 vadd x y.
Definition msub (x y : mat) : mat := map2 vsub x y.
Definition mtimes (x : mat) (s : Q) : mat := map (fun r => vtimes r s) x.
Definition mover (x : mat) (s : Q) : mat := map (fun r => vover r s) x.

Definition vsum (x : vec) : Q := fold_right Qplus 0 x.
Definition dot (x y : vec) : Q := vsum (vmul x y).
(** [G @ x] for a matrix [G] and a vector [x]. *)
Definition matvec (G : mat) (x : vec) : vec := map (fun row => dot row x) G.

Definition any (m : mask) : bool := existsb (fun b => b) m.

(** [np.clip(x, 0, None)] on one entry. *)
Definition clip0 (x : Q) : Q := if Qle_bool 0 x then x else 0.

(** Row [i] of a two-dimensional array, and the array with row [i]
    replaced. *)
Definition row (i : nat) (M : mat) : vec := nth i M [].
Fixpoint set_row (i : nat) (v : vec) (M : mat) : mat :=
  match M, i with
  | [], _ => []
  | _ :: M', O => v :: M'
  | r :: M', S i' => r :: set_row i' v M'
  end.

(** The input current of [step] is passed through [backend.array]: a scalar
    (the driver [collect_spikes] passes [0]) is broadcast over the cells, an
    array is used cell by cell. *)
Inductive current : Type :=
| Scalar (q : Q)
| PerCell (v : vec).

Definition add_current (x : vec) (Iin : current) : vec :=
  match Iin with
  | Scalar q => vplus x q
  | PerCell v => vadd x v
  end.

(** ** The numeric backends (lines 21-46) *)

Module Backend.

Inductive exn : Type :=
| ImportError
| AttributeError
| IndexError
| ValueError.

(** Where a backend's [array] constructor places the data. *)
Inductive device : Type :=
| HostCPU
| CudaDevice.

(** What the module finds when it is imported: whether [import torch]
    succeeds, and what [torch.cuda.is_available()] answers. *)
Record host : Type := mkHost {
  torch_importable : bool;
  cuda_available : bool
}.

Inductive backend : Type :=
| Numpy
    (* class backend_numpy *)
| Torch (has_cuda : bool)
    (* class backend_torch of the try branch *)
| Unavailable (e : exn).
    (* the instance backend_torch(e) of the except branch *)

Inductive attribute : Type :=
| Flag (b : bool)               (* _has_cuda *)
| ArrayConstructor (dev : device)
| LibraryFunction (name : string)
| Stored (e : exn).             (* the attribute e of the stand-in *)

Definition backend_numpy : backend := Numpy.

(** The try/except of lines 30-46. *)
Definition backend_torch (h : host) : backend :=
  if torch_importable h then Torch (cuda_available h)
  else Unavailable ImportError.

Definition is_function (name : string) : bool :=
  (name =? "stack")%string || (name =? "exp")%string
  || (name =? "sign")%string.

(** Attribute access [backend.name].  On the stand-in object the class
    attribute [_has_cuda] and the instance attribute [e] are found by the
    normal lookup; every other name reaches [__getattr__], which raises
    the stored exception.  The names that every Python object defines
    ([__class__], [__dict__], ...) are not modelled. *)
Definition getattr (b : backend) (name : string) : exn + attribute :=
  match b with
  | Numpy =>
      if (name =? "array")%string then inr (ArrayConstructor HostCPU)
      else if is_function name then inr (LibraryFunction name)
      else inl AttributeError
  | Torch has_cuda =>
      if (name =? "_has_cuda")%string then inr (Flag has_cuda)
      else if (name =? "array")%string then
        inr (ArrayConstructor (if has_cuda then CudaDevice else HostCPU))
      else if is_function name then inr (LibraryFunction name)
      else inl AttributeError
  | Unavailable e =>
      if (name =? "_has_cuda")%string then inr (Flag false)
      else if (name =? "e")%string then inr (Stored e)
      else inl e
  end.

(** The attribute [array] as a constructor: the device of the arrays it
    builds, or the exception of the lookup. *)
Definition array (b : backend) : exn + device :=
  match getattr b "array" with
  | inl e => inl e
  | inr (ArrayConstructor dev) => inr dev
  | inr _ => inl AttributeError
  end.

End Backend.

(** ** class Organoid (lines 67-281) *)

Module Organoid.

(** The attributes that [__init__] sets and no method changes afterwards:
    the backend, the cell count, the coordinates, the eleven per-cell
    parameters, the noise parameters and the STDP configuration.
    [tau_stdp] is the column [[tau_plus], [tau_minus], [tau_y]]. *)
Record params : Type := mkParams {
  _backend : Backend.backend;
  N : nat;
  XY : option mat;
  a : vec; b : vec; c : vec; d : vec; C : vec; k : vec;
  Vr : vec; Vt : vec; Vp : vec; Vn : vec; tau : vec;
  noise_event_size : Q;
  noise_event_rate : Q;
  do_stdp : bool;
  tau_stdp : vec;
  Aplus : Q;
  Aminus : Q;
  Ascaling : Q
}.

(** The object.  [VUA] is the 4 x N array whose rows are V, U, A and Adot;
    [traces] the 3 x N array of STDP traces.  [Isyn] and [Idyn] exist only
    once [VUAdot] has run. *)
Record t : Type := mk {
  par : params;
  G : mat;
  VUA : mat;
  traces : mat;
  fired : mask;
  Isyn : option vec;
  Idyn : option vec
}.

Definition set_G (M : mat) (o : t) : t :=
  mk (par o) M (VUA o) (traces o) (fired o) (Isyn o) (Idyn o).
Definition set_VUA (M : mat) (o : t) : t :=
  mk (par o) (G o) M (traces o) (fired o) (Isyn o) (Idyn o).
Definition set_traces (M : mat) (o : t) : t :=
  mk (par o) (G o) (VUA o) M (fired o) (Isyn o) (Idyn o).
Definition set_fired (m : mask) (o : t) : t :=
  mk (par o) (G o) (VUA o) (traces o) m (Isyn o) (Idyn o).
Definition set_currents (isyn idyn : vec) (o : t) : t :=
  mk (par o) (G o) (VUA o) (traces o) (fired o) (Some isyn) (Some idyn).
Definition set_Idyn (idyn : option vec) (o : t) : t :=
  mk (par o) (G o) (VUA o) (traces o) (fired o) (Isyn o) idyn.

(** The properties V, U, A and Adot (lines 251-281): views of the rows of
    [VUA], and their setters. *)
Definition V (o : t) : vec := row 0 (VUA o).
Definition U (o : t) : vec := row 1 (VUA o).
Definition A (o : t) : vec := row 2 (VUA o).
Definition Adot (o : t) : vec := row 3 (VUA o).
Definition set_V (v : vec) (o : t) : t := set_VUA (set_row 0 v (VUA o)) o.
Definition set_U (v : vec) (o : t) : t := set_VUA (set_row 1 v (VUA o)) o.
Definition set_A (v : vec) (o : t) : t := set_VUA (set_row 2 v (VUA o)) o.
Definition set_Adot (v : vec) (o : t) : t :=
  set_VUA (set_row 3 v (VUA o)) o.

Definition zeros (n : nat) : vec := repeat 0 n.

(** [reset] (lines 160-163). *)
Definition reset (o : t) : t :=
  let o1 := set_V (Vr (par o)) o in
  let o2 := set_fired (vge (V o1) (Vp (par o1))) o1 in
  set_VUA (match VUA o2 with
           | [] => []
           | v :: rest => v :: map (fun r => map (fun _ => 0) r) rest
           end) o2.

(** [__init__] (lines 115-158).  The first statement that uses the backend
    is [backend.array(G)]; an exception raised there leaves no object. *)
Definition init (backend : Backend.backend) (XY0 : option mat) (G0 : mat)
    (a0 b0 c0 d0 C0 k0 Vr0 Vt0 Vp0 Vn0 tau0 : vec)
    (noise_event_rate0 noise_event_size0 : Q) (do_stdp0 : bool)
    (stdp_tau_plus stdp_tau_minus stdp_tau_y stdp_Aplus stdp_Aminus
       synaptic_scaling_rate : Q)
  : Backend.exn + t :=
  match Backend.array backend with
  | inl e => inl e
  | inr _ =>
      let n := length G0 in
      let p := mkParams backend n XY0 a0 b0 c0 d0 C0 k0 Vr0 Vt0 Vp0 Vn0 tau0
                 noise_event_size0 noise_event_rate0 do_stdp0
                 [stdp_tau_plus; stdp_tau_minus; stdp_tau_y]
                 stdp_Aplus stdp_Aminus synaptic_scaling_rate in
      inr (reset (mk p G0 (repeat (zeros n) 4) (repeat (zeros n) 3)
                    [] None None))
  end.

(** The synaptic current of line 169:
    [G@(A * Vn) - (G@A) * V]. *)
Definition synaptic_current (G : mat) (A Vn V : vec) : vec :=
  vsub (matvec G (vmul A Vn)) (vmul (matvec G A) V).

(** [VUAdot] (lines 165-175): the derivative of the four phase variables,
    together with the object after [Isyn] and [Idyn] have been stored. *)
Definition VUAdot (Iin : current) (o : t) : mat * t :=
  let p := par o in
  let NAcurrent :=
    vmul (vmul (k p) (vsub (V o) (Vr p))) (vsub (V o) (Vt p)) in
  let isyn := synaptic_current (G o) (A o) (Vn p) (V o) in
  let idyn := add_current (vsub NAcurrent (U o)) Iin in
  let Vdot := vdiv (vadd idyn isyn) (C p) in
  let Udot := vmul (a p) (vsub (vmul (b p) (vsub (V o) (Vr p))) (U o)) in
  let Adot' := vdiv (Adot o) (tau p) in
  let Addot := vdiv (vneg (vadd (A o) (vscale 2 (Adot o)))) (tau p) in
  ([Vdot; Udot; Adot'; Addot], set_currents isyn idyn o).

(** *** The phases of [step] (lines 177-248), in program order *)

(** Lines 186-188: the reset deferred from the previous call. *)
Definition deferred_reset (o : t) : t :=
  let o1 := set_V (where_ (fired o) (c (par o)) (V o)) o in
  let o2 := set_U (where_ (fired o1) (vadd (U o1) (d (par o1))) (U o1)) o1 in
  set_Adot (where_ (fired o2) (vplus (Adot o2) 1) (Adot o2)) o2.

(** Lines 192-194.  The Poisson sampler belongs to the environment: its
    draw [num_noise_events], one count per cell, is an argument. *)
Definition channel_noise (num_noise_events : list nat) (o : t) : t :=
  set_Adot
    (vadd (Adot o)
       (vscale (noise_event_size (par o))
          (map (fun n => inject_Z (Z.of_nat n)) num_noise_events)))
    o.

(** Lines 199-200: [G[:,fired] -= Aminus * traces[1,fired]]. *)
Definition depress (o : t) (M : mat) : mat :=
  let pre_mod := vscale (Aminus (par o)) (row 1 (traces o)) in
  map (fun r => where_ (fired o) (vsub r pre_mod) r) M.

(** Lines 203-205:
    [G[fired,:] += Aplus * (traces[0,:] * traces[2,fired,None])]. *)
Definition potentiate (o : t) (M : mat) : mat :=
  map2 (fun (ft : bool * Q) (r : vec) =>
          if fst ft
          then vadd r (vscale (Aplus (par o))
                         (vtimes (row 0 (traces o)) (snd ft)))
          else r)
       (combine (fired o) (row 2 (traces o))) M.

(** Lines 211-213:
    [G[:,Vn > Vt] -= (traces[2,:,None] - 0.5) * dt*Ascaling]. *)
Definition scaling (dt : Q) (o : t) (M : mat) : mat :=
  let excitatory := vgt (Vn (par o)) (Vt (par o)) in
  map2 (fun (ty : Q) (r : vec) =>
          where_ excitatory
            (map (fun g => g - (ty - (1 # 2)) * dt * Ascaling (par o)) r) r)
       (row 2 (traces o)) M.

(** Line 216: [np.clip(G, 0, None, out=G)]. *)
Definition clip (M : mat) : mat := map (map clip0) M.

(** Line 220: [traces[:,fired] += 1]. *)
Definition bump_traces (o : t) (T : mat) : mat :=
  map (fun r => where_ (fired o) (vplus r 1) r) T.

(** Line 223: [traces *= 1 - dt / tau_stdp]. *)
Definition decay_traces (dt : Q) (o : t) (T : mat) : mat :=
  map2 (fun (tau_r : Q) (r : vec) => vtimes r (1 - dt / tau_r))
       (tau_stdp (par o)) T.

(** Lines 196-223. *)
Definition stdp (dt : Q) (o : t) : t :=
  if do_stdp (par o) then
    let o1 :=
      if any (fired o) then
        let o' := set_G (clip (scaling dt o (potentiate o (depress o (G o))))) o
        in set_traces (bump_traces o' (traces o')) o'
      else o in
    set_traces (decay_traces dt o1 (traces o1)) o1
  else o.

(** Lines 228-232: the midpoint method. *)
Definition midpoint (dt : Q) (Iin : current) (o : t) : t :=
  let (k1, o1) := VUAdot Iin o in
  let o2 := set_VUA (madd (VUA o1) (mover (mtimes k1 dt) 2)) o1 in
  let (k2, o3) := VUAdot Iin o2 in
  set_VUA (madd (VUA o3) (msub (mtimes k2 dt) (mover (mtimes k1 dt) 2))) o3.

(** Lines 238-239: [Idyn[fired] += C[fired] * (c[fired] - Vp[fired])]. *)
Definition adjust_Idyn (o : t) : t :=
  let deltaV := vsub (c (par o)) (Vp (par o)) in
  set_Idyn
    (option_map
       (fun idyn => where_ (fired o) (vadd idyn (vmul (C (par o)) deltaV)) idyn)
       (Idyn o))
    o.

(** Lines 247-248: the new spike marks, and the clamp to the peak. *)
Definition mark_fired (o : t) : t :=
  let o1 := set_fired (vge (V o) (Vp (par o))) o in
  set_V (where_ (fired o1) (Vp (par o1)) (V o1)) o1.

(** [step(dt, Iin)]. *)
Definition step (dt : Q) (Iin : current) (num_noise_events : list nat)
    (o : t) : t :=
  mark_fired
    (adjust_Idyn
       (midpoint dt Iin
          (stdp dt (channel_noise num_noise_events (deferred_reset o))))).

(** A run of [step] calls, one triple of arguments per call. *)
Definition run (calls : list (Q * current * list nat)) (o : t) : t :=
  fold_left (fun s call =>
               match call with (dt, Iin, nne) => step dt Iin nne s end)
            calls o.

End Organoid.

(** ** class ChargedMedium (lines 344-444) *)

Module ChargedMedium.

Import Backend.

(** The error monad of the methods: [inl e] when exception [e] is raised.
    An exception ends the call; the state in which it leaves the object is
    not described. *)
Definition result (T : Type) : Type := (exn + T)%type.
Definition ret {T : Type} (x : T) : result T := inr x.
Definition bind {T U : Type} (r : result T) (f : T -> result U) : result U :=
  match r with
  | inl e => inl e
  | inr x => f x
  end.
Notation "x <- r ;; f" := (bind r (fun x => f))
  (at level 61, r at next level, right associativity).

(** Reading an attribute that is set only by a later method call. *)
Definition attr {T : Type} (a : option T) : result T :=
  match a with
  | Some x => inr x
  | None => inl AttributeError
  end.

(** An array of probe points: the object's identity and its 2 x P
    coordinates. *)
Record ndarray : Type := mkArray {
  oid : nat;
  coords : mat
}.

(** The object.  [org] is a reference to an organoid, an object that its own
    [step] mutates: the methods below take the organoid's state at the time
    of the call as the argument [organoid], and the field records only
    that the reference is bound.  [Vprev], by contrast, is a copy. *)
Record t : Type := mk {
  D : Q;
  X : vec;
  Y : vec;
  _grid : mat * mat;
  dx : Q;
  dy : Q;
  rho : mat;
  sigma : Q * Q;
  _eps_factor : Q;
  org : bool;
  Vprev : option vec;
  _neuron_grid : option (list nat * list nat);
  _points : option ndarray;
  _r : option (list mat);
  _d : option mat
}.

Definition set_rho (M : mat) (m : t) : t :=
  mk (D m) (X m) (Y m) (_grid m) (dx m) (dy m) M (sigma m) (_eps_factor m)
     (org m) (Vprev m) (_neuron_grid m) (_points m) (_r m) (_d m).
Definition set_Vprev (v : vec) (m : t) : t :=
  mk (D m) (X m) (Y m) (_grid m) (dx m) (dy m) (rho m) (sigma m)
     (_eps_factor m) (org m) (Some v) (_neuron_grid m) (_points m) (_r m)
     (_d m).
Definition bind_org (v : vec) (ng : list nat * list nat) (m : t) : t :=
  mk (D m) (X m) (Y m) (_grid m) (dx m) (dy m) (rho m) (sigma m)
     (_eps_factor m) true (Some v) (Some ng) (_points m) (_r m) (_d m).
Definition set_probe (p : ndarray) (r : list mat) (dd : mat) (m : t) : t :=
  mk (D m) (X m) (Y m) (_grid m) (dx m) (dy m) (rho m) (sigma m)
     (_eps_factor m) (org m) (Vprev m) (_neuron_grid m) (Some p) (Some r)
     (Some dd).

(** [np.pi], the double nearest to pi. *)
Definition np_pi : Q := 884279719003555 # 281474976710656.

(** [np.argmin] of a one-dimensional array: the first index of the least
    entry. *)
Fixpoint argmin_from (best_i : nat) (best : Q) (i : nat) (l : vec) : nat :=
  match l with
  | [] => best_i
  | x :: l' =>
      if Qle_bool best x then argmin_from best_i best (S i) l'
      else argmin_from i x (S i) l'
  end.
Definition argmin (l : vec) : result nat :=
  match l with
  | [] => inl ValueError
  | x :: l' => inr (argmin_from 0%nat x 1%nat l')
  end.

(** [np.argmin(abs(xs - grid[:,None]), axis=0)]: for each entry of [xs] the
    index of the nearest grid coordinate. *)
Fixpoint nearest (grid xs : vec) : result (list nat) :=
  match xs with
  | [] => ret []
  | x :: xs' =>
      i <- argmin (map (fun g => Qabs (x - g)) grid) ;;
      rest <- nearest grid xs' ;;
      ret (i :: rest)
  end.

(** One entry of a two-dimensional array incremented in place. *)
Fixpoint add_nth (j : nat) (q : Q) (r : vec) : vec :=
  match r, j with
  | [], _ => []
  | x :: r', O => (x + q) :: r'
  | x :: r', S j' => x :: add_nth j' q r'
  end.
Fixpoint add_at (i j : nat) (q : Q) (M : mat) : mat :=
  match M, i with
  | [], _ => []
  | r :: M', O => add_nth j q r :: M'
  | r :: M', S i' => r :: add_at i' j q M'
  end.

Definition in_shape (i j : nat) (M : mat) : bool :=
  (i <? length M)%nat && (j <? length (nth i M []))%nat.

(** [rho += sparse.coo_matrix((charge, (xs, ys)), shape=rho.shape)]: the
    loop of lines 394-395, which the comment of lines 383-389 gives as the
    meaning of the statement.  The constructor rejects index arrays of
    another length than the data and indices outside the shape. *)
Fixpoint scatter_add (charge : vec) (xs ys : list nat) (M : mat)
  : result mat :=
  match charge, xs, ys with
  | [], [], [] => ret M
  | q :: charge', x :: xs', y :: ys' =>
      if in_shape x y M then scatter_add charge' xs' ys' (add_at x y q M)
      else inl ValueError
  | _, _, _ => inl ValueError
  end.

(** [np.trapz(y, x)] along one axis. *)
Fixpoint trapz (y x : vec) : Q :=
  match y, x with
  | y0 :: ((y1 :: _) as y'), x0 :: ((x1 :: _) as x') =>
      (x1 - x0) * (y1 + y0) / 2 + trapz y' x'
  | _, _ => 0
  end.

Section Library.

(** Functions of NumPy and SciPy that the class calls: the square root,
    the Gaussian filter [ndimage.gaussian_filter(rho, mode='constant',
    sigma=(sx, sy))], and the truth value of [item == points] for an array
    [points] and an object [item] that is not [points] itself. *)
Variable sqrtQ : Q -> Q.
Variable gaussian_filter : Q * Q -> mat -> mat.
Variable eq_truth : option ndarray -> ndarray -> result bool.

(** [__init__] (lines 352-364). *)
Definition init (Xgrid Ygrid : vec) (D0 eps_rel : Q) : result t :=
  match Xgrid, Ygrid with
  | x0 :: x1 :: _, y0 :: y1 :: _ =>
      let dx0 := x1 - x0 in
      let dy0 := y1 - y0 in
      ret (mk D0 Xgrid Ygrid
             (map (fun x => map (fun _ => x) Ygrid) Xgrid,
              map (fun _ => Ygrid) Xgrid)
             dx0 dy0
             (map (fun _ => map (fun _ => 0) Ygrid) Xgrid)
             (sqrtQ (2 * D0) / dx0, sqrtQ (2 * D0) / dy0)
             (4 * np_pi * eps_rel * (8854187 # 1000000))
             false None None None None None)
  | _, _ => inl IndexError
  end.

(** [immerse] (lines 366-375). *)
Definition immerse (organoid : Organoid.t) (m : t) : result t :=
  xy <- attr (Organoid.XY (Organoid.par organoid)) ;;
  gx <- nearest (X m) (row 0 xy) ;;
  gy <- nearest (Y m) (row 1 xy) ;;
  ret (bind_org (Organoid.V organoid) (gx, gy) m).

(** The charge increments of line 390. *)
Definition charge_of (organoid : Organoid.t) (vprev : vec) (m : t) : vec :=
  vover (vmul (Organoid.C (Organoid.par organoid))
           (vsub vprev (Organoid.V organoid)))
        (dx m * dy m).

(** [step] (lines 377-408).  The second component of the result tells
    whether the warning of lines 400-403 was issued. *)
Definition step (dt : Q) (organoid : Organoid.t) (m : t)
  : result (t * bool) :=
  _ <- (if org m then ret tt else inl AttributeError) ;;
  vprev <- attr (Vprev m) ;;
  ng <- attr (_neuron_grid m) ;;
  rho1 <- scatter_add (charge_of organoid vprev m) (fst ng) (snd ng)
            (rho m) ;;
  let sigma1 := (fst (sigma m) * sqrtQ dt, snd (sigma m) * sqrtQ dt) in
  let warned := negb (Qle_bool 1 (4 * fst sigma1))
                || negb (Qle_bool 1 (4 * snd sigma1)) in
  ret (set_Vprev (Organoid.V organoid)
         (set_rho (gaussian_filter sigma1 rho1) m),
       warned).

(** [np.linalg.norm(., axis=0)] of a difference of two planar points. *)
Definition norm2 (ax ay bx by_ : Q) : Q :=
  sqrtQ ((ax - bx) * (ax - bx) + (ay - by_) * (ay - by_)).

(** [probe_at] (lines 410-422). *)
Definition probe_at (points : ndarray) (organoid : Organoid.t) (m : t)
  : result t :=
  let px := row 0 (coords points) in
  let py := row 1 (coords points) in
  let r := map (fun p : Q * Q =>
                  map (fun x => map (fun y => norm2 (fst p) (snd p) x y)
                                    (Y m))
                      (X m))
               (combine px py) in
  _ <- (if org m then ret tt else inl AttributeError) ;;
  xy <- attr (Organoid.XY (Organoid.par organoid)) ;;
  let dd := map (fun p : Q * Q =>
                   map (fun c : Q * Q =>
                          norm2 (fst p) (snd p) (fst c) (snd c))
                       (combine (row 0 xy) (row 1 xy)))
                (combine px py) in
  ret (set_probe points r dd m).

(** The test [points in (None, cached)] of line 432, for the tuple already
    built: an item that is [points] itself counts as equal, any other item
    is compared by [==]. *)
Definition same_object (item points : option ndarray) : bool :=
  match item, points with
  | None, None => true
  | Some x, Some y => (oid x =? oid y)%nat
  | _, _ => false
  end.

Definition in_tuple (points : option ndarray) (cached : option ndarray)
  : result bool :=
  match points with
  | None => ret true
  | Some p =>
      e0 <- eq_truth None p ;;
      if e0 then ret true
      else if same_object cached points then ret true
      else eq_truth cached p
  end.

(** [probe] (lines 424-444).  Building the tuple [(None, self._points)]
    reads the attribute [_points] before anything else happens. *)
Definition probe (points : option ndarray) (organoid : Organoid.t) (m : t)
  : result (t * vec) :=
  cached <- attr (_points m) ;;
  member <- in_tuple points (Some cached) ;;
  m1 <- (if member then ret m
         else match points with
              | Some p => probe_at p organoid m
              | None => ret m
              end) ;;
  r <- attr (_r m1) ;;
  let dist :=
    map (fun rp : mat =>
           trapz (map2 (fun rho_x r_x => trapz (vdiv rho_x r_x) (Y m1))
                       (rho m1) rp)
                 (X m1))
        r in
  _ <- (if org m1 then ret tt else inl AttributeError) ;;
  dd <- attr (_d m1) ;;
  let cells :=
    map (fun d_p : vec =>
           dot (vmul (Organoid.C (Organoid.par organoid))
                  (map (fun e => 1 / e) d_p))
               (vsub (Organoid.V organoid)
                  (Organoid.Vr (Organoid.par organoid))))
        dd in
  ret (m1, vover (vadd dist cells) (_eps_factor m1)).

End Library.

End ChargedMedium.

(** ** _gen_frame_events (lines 492-504) *)

(** A firing event: its time and the index of the cell. *)
Abbreviation event := (Q * nat)%type (only parsing).

(** The loop of the generator from a given point on: [T] is the end of
    the current interval and [evs] the batch collected so far.  The result
    is the list of the batches yielded, in order, and the batch that is
    still being collected when the events run out; the generator returns
    without yielding that one. *)
Fixpoint frames_from (dt T : Q) (evs : list event) (events : list event)
  : list (list event) * list event :=
  match events with
  | [] => ([], evs)
  | (time, cell) :: rest =>
      if Qle_bool time T
      then frames_from dt T (evs ++ [(T - time, cell)]) rest
      else
        let T' := T + dt in
        let (frames, pending) :=
          frames_from dt T' [(T' - time, cell)] rest in
        (evs :: frames, pending)
  end.

(** The batches that [_gen_frame_events(dt, events)] yields. *)
Definition _gen_frame_events (dt : Q) (events : list event)
  : list (list event) :=
  fst (frames_from dt dt [] events).

(** ** Shapes *)

Definition shape (n m : nat) (M : mat) : Prop :=
  length M = n /\ Forall (fun r => length r = m) M.

(** The shape conditions that NumPy checks: every per-cell array has one
    entry per cell, [G] is N x N, [VUA] is 4 x N, [traces] is 3 x N. *)
Record wf_params (p : Organoid.params) : Prop := mkWfParams {
  wf_a : length (Organoid.a p) = Organoid.N p;
  wf_b : length (Organoid.b p) = Organoid.N p;
  wf_c : length (Organoid.c p) = Organoid.N p;
  wf_d : length (Organoid.d p) = Organoid.N p;
  wf_C : length (Organoid.C p) = Organoid.N p;
  wf_k : length (Organoid.k p) = Organoid.N p;
  wf_Vr : length (Organoid.Vr p) = Organoid.N p;
  wf_Vt : length (Organoid.Vt p) = Organoid.N p;
  wf_Vp : length (Organoid.Vp p) = Organoid.N p;
  wf_Vn : length (Organoid.Vn p) = Organoid.N p;
  wf_tau : length (Organoid.tau p) = Organoid.N p;
  wf_tau_stdp : length (Organoid.tau_stdp p) = 3%nat
}.

Record wf (o : Organoid.t) : Prop := mkWf {
  wf_par : wf_params (Organoid.par o);
  wf_G : shape (Organoid.N (Organoid.par o)) (Organoid.N (Organoid.par o))
           (Organoid.G o);
  wf_VUA : shape 4 (Organoid.N (Organoid.par o)) (Organoid.VUA o);
  wf_traces : shape 3 (Organoid.N (Organoid.par o)) (Organoid.traces o);
  wf_fired : length (Organoid.fired o) = Organoid.N (Organoid.par o)
}.

(** The arguments of a [step] call fit an organoid of [n] cells. *)
Definition wf_current (n : nat) (Iin : current) : Prop :=
  match Iin with
  | Scalar _ => True
  | PerCell v => length v = n
  end.

(** Equality of arrays up to the equality [==] of rationals. *)
Definition veq (x y : vec) : Prop := Forall2 Qeq x y.
Definition meq (x y : mat) : Prop := Forall2 veq x y.


(** The count drawn for cell [i], as the number added to [Adot]. *)
Definition noise_at (nne : list nat) (i : nat) : Q :=
  inject_Z (Z.of_nat (nth i nne 0%nat)).

(** *** The reference form of the synaptic current *)

(** [f 0 + f 1 + ... + f (n-1)]. *)
Definition index_sum (n : nat) (f : nat -> Q) : Q :=
  fold_right (fun j acc => f j + acc) 0 (seq 0 n).

(** The conductance-based synapse equation as the specification writes it:
    the current into cell [i] is the sum over the presynaptic cells [j] of
    G[i,j] * A_j * (Vn_j - V_i). *)
Definition Isyn_reference (n : nat) (G : mat) (A Vn V : vec) (i : nat) : Q :=
  index_sum n (fun j =>
    nth j (nth i G []) 0 * nth j A 0 * (nth j Vn 0 - nth i V 0)).

(** *** The charged medium: shapes and sums *)

(** The integral of the field over the grid, up to the cell area: the sum
    of all entries. *)
Definition grid_sum (M : mat) : Q := vsum (map vsum M).

(** The charge that the neurons quantized to grid cell [(x, y)] deposit
    there: the sum of their increments. *)
Fixpoint deposited (x y : nat) (charge : vec) (xs ys : list nat) : Q :=
  match charge, xs, ys with
  | q :: charge', x' :: xs', y' :: ys' =>
      (if (x' =? x)%nat && (y' =? y)%nat then q else 0)
      + deposited x y charge' xs' ys'
  | _, _, _ => 0
  end.

(** Grid index [i] is nearest to the coordinate [x]: no grid coordinate is
    closer to [x] than [grid[i]]. *)
Definition nearest_to (grid : vec) (x : Q) (i : nat) : Prop :=
  forall g, In g grid -> Qabs (x - nth i grid 0) <= Qabs (x - g).

(** A medium in which an organoid of [n] cells with coordinates [xy] is
    immersed: what [__init__] and [immerse] establish.  [sqrtQ] is the
    square root that [__init__] used; [xs] and [ys] are the grid indices
    precomputed for the cells. *)
Record immersed (sqrtQ : Q -> Q) (n : nat) (xy : mat) (m : ChargedMedium.t)
    (vprev : vec) (xs ys : list nat) : Prop := mkImmersed {
  im_org : ChargedMedium.org m = true;
  im_Vprev : ChargedMedium.Vprev m = Some vprev;
  im_grid : ChargedMedium._neuron_grid m = Some (xs, ys);
  im_rho : shape (length (ChargedMedium.X m)) (length (ChargedMedium.Y m))
             (ChargedMedium.rho m);
  im_sigma : ChargedMedium.sigma m
             = (sqrtQ (2 * ChargedMedium.D m) / ChargedMedium.dx m,
                sqrtQ (2 * ChargedMedium.D m) / ChargedMedium.dy m);
  im_vprev_len : length vprev = n;
  im_xs_len : length xs = n;
  im_ys_len : length ys = n;
  im_xs : Forall (fun x => (x < length (ChargedMedium.X m))%nat) xs;
  im_ys : Forall (fun y => (y < length (ChargedMedium.Y m))%nat) ys;
  im_near_x : forall i, (i < n)%nat ->
      nearest_to (ChargedMedium.X m) (nth i (row 0 xy) 0) (nth i xs 0%nat);
  im_near_y : forall i, (i < n)%nat ->
      nearest_to (ChargedMedium.Y m) (nth i (row 1 xy) 0) (nth i ys 0%nat)
}.

(** *** Library functions for the examples *)

(** A rational square root: the integer square root of the numerator
    scaled to the denominator. *)
Definition sqrt_floor (q : Q) : Q :=
  Z.sqrt (Qnum q * Zpos (Qden q)) # Qden q.

(** Three-point smoothing of a vector with zeros beyond its ends; a width
    of at most 1e-15 leaves the vector alone, as
    [ndimage.gaussian_filter] skips such an axis. *)
Fixpoint smooth_from (prev : Q) (r : vec) : vec :=
  match r with
  | [] => []
  | x :: r' =>
      ((1 # 4) * prev + (1 # 2) * x
       + (1 # 4) * match r' with [] => 0 | y :: _ => y end)
      :: smooth_from x r'
  end.
Definition smooth_axis (s : Q) (r : vec) : vec :=
  if Qle_bool s (1 # 1000000000000000) then r else smooth_from 0 r.

Fixpoint transpose (cols : nat) (M : mat) : mat :=
  match cols with
  | O => []
  | S cols' => map (fun r => hd 0 r) M :: transpose cols' (map (@tl Q) M)
  end.

Definition smooth_filter (s : Q * Q) (M : mat) : mat :=
  let M1 := map (smooth_axis (snd s)) M in
  if Qle_bool (fst s) (1 # 1000000000000000) then M1
  else transpose (length M1)
         (map (smooth_axis (fst s)) (transpose (length (hd [] M1)) M1)).

(** The truth value of [item == points] in the examples: a comparison with
    [None] is elementwise false, a comparison of two arrays elementwise;
    the truth value of a result with more than one element is an error. *)
Definition array_truth (item : option ChargedMedium.ndarray)
    (points : ChargedMedium.ndarray) : ChargedMedium.result bool :=
  match concat (ChargedMedium.coords points) with
  | [] => inr false
  | [x] =>
      match item with
      | Some c =>
          match concat (ChargedMedium.coords c) with
          | [y] => inr (Qeq_bool x y)
          | _ => inr false
          end
      | None => inr false
      end
  | _ => inl Backend.ValueError
  end.

(** *** The backends *)

(** Failing fast without an accelerator, read literally: on every host
    without a CUDA device the first use of the torch backend, the call of
    its [array], raises an exception. *)
Definition fails_fast_without_accelerator : Prop :=
  forall h, Backend.cuda_available h = false ->
    exists e, Backend.array (Backend.backend_torch h) = inl e.

(** *** Media on which [probe_at] was never called *)

Section NeverProbed.

Variable sqrtQ : Q -> Q.
Variable gaussian_filter : Q * Q -> mat -> mat.

(** The media that [__init__], [immerse] and [step] produce. *)
Inductive never_probed : ChargedMedium.t -> Prop :=
| np_init Xgrid Ygrid D0 eps_rel m :
    ChargedMedium.init sqrtQ Xgrid Ygrid D0 eps_rel = inr m ->
    never_probed m
| np_immerse organoid m m' :
    never_probed m ->
    ChargedMedium.immerse organoid m = inr m' ->
    never_probed m'
| np_step dt organoid m m' warned :
    never_probed m ->
    ChargedMedium.step sqrtQ gaussian_filter dt organoid m
    = inr (m', warned) ->
    never_probed m'.

End NeverProbed.

(** *** Example states *)

(** Two cells, a regular-spiking cell that excites a low-threshold-spiking
    one, with the parameters of [NEURON_TYPES] and the default STDP
    configuration. *)
Definition two_cells (stdp_on : bool) : Organoid.params :=
  Organoid.mkParams Backend.Numpy 2 (Some [[0; 10]; [0; 0]])
    [3 # 100; 3 # 100] [-2 # 1; 8] [-50 # 1; -53 # 1] [100; 20] [100; 100]
    [7 # 10; 1] [-60 # 1; -56 # 1] [-40 # 1; -42 # 1] [35; 20]
    [0; -70 # 1] [5; 20]
    (1 # 10) 1 stdp_on [15; 35; 115] (65 # 10000) (7 # 1000) (1 # 10000).

(** The state that [__init__] leaves: every cell at rest. *)
Definition resting : Organoid.t :=
  Organoid.mk (two_cells false) [[0; 0]; [1 # 2; 0]]
    [[-60 # 1; -56 # 1]; [0; 0]; [0; 0]; [0; 0]]
    [[0; 0]; [0; 0]; [0; 0]] [false; false] None None.

(** The state in which cell 0 has just been clamped to its peak. *)
Definition spiking (stdp_on : bool) : Organoid.t :=
  Organoid.mk (two_cells stdp_on) [[0; 0]; [1 # 2; 0]]
    [[35; -56 # 1]; [-3 # 2; 0]; [0; 0]; [0; 0]]
    [[0; 0]; [0; 0]; [0; 0]] [true; false] None None.

(** The spiking state with a large depression trace at cell 0. *)
Definition depressed : Organoid.t :=
  Organoid.mk (two_cells true) [[0; 0]; [1 # 2; 0]]
    [[35; -56 # 1]; [-3 # 2; 0]; [0; 0]; [0; 0]]
    [[0; 0]; [100; 0]; [0; 0]] [true; false] None None.

(** A host on which torch is installed and no CUDA device is present. *)
Definition cpu_only_host : Backend.host := Backend.mkHost true false.

(** A host on which torch is not installed. *)
Definition torchless_host : Backend.host := Backend.mkHost false false.

(** A 3 x 3 grid with spacing 10, freshly constructed with [D = 0]. *)
Definition still_medium : ChargedMedium.result ChargedMedium.t :=
  ChargedMedium.init sqrt_floor [0; 10; 20] [0; 10; 20] 0 80.

(** The two-cell organoid immersed in it. *)
Definition still_immersed : ChargedMedium.result ChargedMedium.t :=
  ChargedMedium.bind still_medium (ChargedMedium.immerse (spiking false)).

(** Two probe points. *)
Definition two_points : ChargedMedium.ndarray :=
  ChargedMedium.mkArray 7 [[5; 15]; [5; 5]].

(** The two-cell organoid one call after the spike of cell 0. *)
Definition stepped : Organoid.t :=
  Organoid.step (1 # 2) (Scalar 0) [0%nat; 0%nat] (spiking false).

(** The spiking state after the deferred reset, a noise draw and the
    plasticity update of a call with [dt = 1/2]: the state that the
    integration of that call starts from. *)
Definition ready : Organoid.t :=
  Organoid.stdp (1 # 2)
    (Organoid.channel_noise [0%nat; 1%nat]
       (Organoid.deferred_reset (spiking true))).

(** *** Runs of [step] calls *)

(** The arguments of a call fit an organoid of [n] cells. *)
Definition call_fits (n : nat) (call : Q * current * list nat) : Prop :=
  match call with
  | (_, Iin, nne) => wf_current n Iin /\ length nne = n
  end.

(** *** The resting state *)

(** Every entry is zero, up to [==]. *)
Definition vzero (x : vec) : Prop := Forall (fun e => e == 0) x.




(** *** Runs of [ChargedMedium.step] calls *)

(** A sequence of [step] calls on a medium; each call comes with its time
    step and with the state that the immersed organoid has at that time.
    The warnings are dropped. *)
Fixpoint medium_run (sqrtQ : Q -> Q) (gaussian_filter : Q * Q -> mat -> mat)
    (calls : list (Q * Organoid.t)) (m : ChargedMedium.t)
  : ChargedMedium.result ChargedMedium.t :=
  match calls with
  | [] => inr m
  | (dt, organoid) :: calls' =>
      match ChargedMedium.step sqrtQ gaussian_filter dt organoid m with
      | inl e => inl e
      | inr (m', _) => medium_run sqrtQ gaussian_filter calls' m'
      end
  end.

(** A later state of the organoid [o0]: the same parameters, and
    well-shaped arrays. *)
Definition later_state (o0 o : Organoid.t) : Prop :=
  wf o /\ Organoid.par o = Organoid.par o0.

(** ** Lists and arrays *)

Section Arrays.

Context {A B C : Type}.

Lemma map2_length (f : A -> B -> C) xs ys :
  length (map2 f xs ys) = Nat.min (length xs) (length ys).
Proof.
  revert ys; induction xs as [|x xs IH]; intros [|y ys]; simpl; auto.
Qed.

Lemma map2_length_same (f : A -> B -> C) xs ys n :
  length xs = n -> length ys = n -> length (map2 f xs ys) = n.
Proof. intros; rewrite map2_length; lia. Qed.

Lemma nth_map2 (f : A -> B -> C) xs ys i dx dy dz :
  (i < length xs)%nat -> (i < length ys)%nat ->
  nth i (map2 f xs ys) dz = f (nth i xs dx) (nth i ys dy).
Proof.
  revert ys i; induction xs as [|x xs IH]; intros [|y ys] [|i]; simpl;
    intros; try lia; auto.
  apply IH; lia.
Qed.

Lemma nth_map' (f : A -> B) l i d d' :
  (i < length l)%nat -> nth i (map f l) d' = f (nth i l d).
Proof.
  revert i; induction l as [|x l IH]; intros [|i]; simpl; intros; try lia;
    auto.
  apply IH; lia.
Qed.

End Arrays.

Lemma where_length m xs ys : length (where_ m xs ys) = length ys.
Proof.
  revert m xs; induction ys as [|y ys IH]; intros [|b m] [|x xs]; simpl;
    auto.
Qed.

Lemma nth_where m xs ys i :
  (i < length m)%nat -> (i < length xs)%nat -> (i < length ys)%nat ->
  nth i (where_ m xs ys) 0 = if nth i m false then nth i xs 0 else nth i ys 0.
Proof.
  revert m xs i; induction ys as [|y ys IH]; intros [|b m] [|x xs] [|i];
    simpl; intros; try lia; auto.
  apply IH; lia.
Qed.

Lemma shape_map (f : vec -> vec) r n M :
  (forall x, length x = n -> length (f x) = n) ->
  shape r n M -> shape r n (map f M).
Proof.
  intros Hf [Hl Hr]; split.
  - now rewrite length_map.
  - clear Hl. induction Hr; simpl; constructor; auto.
Qed.

Lemma shape_map2 {X : Type} (f : X -> vec -> vec) r n (l : list X) M :
  (forall q x, length x = n -> length (f q x) = n) ->
  length l = r -> shape r n M -> shape r n (map2 f l M).
Proof.
  intros Hf Hl [HM Hr]; split.
  - rewrite map2_length; lia.
  - clear Hl HM. revert l; induction Hr; intros [|q l']; simpl;
      constructor; auto.
Qed.

Lemma shape_zip (f : vec -> vec -> vec) r n M M' :
  (forall x y, length x = n -> length y = n -> length (f x y) = n) ->
  shape r n M -> shape r n M' -> shape r n (map2 f M M').
Proof.
  intros Hf [HM Hr] [HM' Hr']; split.
  - rewrite map2_length; lia.
  - clear HM HM'. revert M' Hr'; induction Hr; intros M' Hr';
      destruct Hr'; simpl; constructor; auto.
Qed.

Lemma shape_madd r n M M' :
  shape r n M -> shape r n M' -> shape r n (madd M M').
Proof.
  apply shape_zip. intros; now apply map2_length_same.
Qed.

Lemma shape_msub r n M M' :
  shape r n M -> shape r n M' -> shape r n (msub M M').
Proof.
  apply shape_zip. intros; now apply map2_length_same.
Qed.

Lemma shape_mtimes r n M s : shape r n M -> shape r n (mtimes M s).
Proof.
  apply shape_map. intros; unfold vtimes; now rewrite length_map.
Qed.

Lemma shape_mover r n M s : shape r n M -> shape r n (mover M s).
Proof.
  apply shape_map. intros; unfold vover; now rewrite length_map.
Qed.

Lemma shape4_inv n M :
  shape 4 n M ->
  exists v u a ad,
    M = [v; u; a; ad]
    /\ length v = n /\ length u = n /\ length a = n /\ length ad = n.
Proof.
  intros [Hl Hr].
  destruct M as [|v [|u [|a [|ad [|x M]]]]]; simpl in Hl; try lia.
  exists v, u, a, ad.
  inversion Hr as [|? ? Hv Hr1]; subst.
  inversion Hr1 as [|? ? Hu Hr2]; subst.
  inversion Hr2 as [|? ? Ha Hr3]; subst.
  inversion Hr3 as [|? ? Had Hr4]; subst.
  auto.
Qed.

Lemma shape4_intro n v u a ad :
  length v = n -> length u = n -> length a = n -> length ad = n ->
  shape 4 n [v; u; a; ad].
Proof. intros; split; auto. Qed.

Lemma shape3_inv n M :
  shape 3 n M ->
  exists p q y,
    M = [p; q; y] /\ length p = n /\ length q = n /\ length y = n.
Proof.
  intros [Hl Hr].
  destruct M as [|p [|q [|y [|x M]]]]; simpl in Hl; try lia.
  exists p, q, y.
  inversion Hr as [|? ? Hp Hr1]; subst.
  inversion Hr1 as [|? ? Hq Hr2]; subst.
  inversion Hr2 as [|? ? Hy Hr3]; subst.
  auto.
Qed.

(** ** [step] keeps the shapes *)

Import Organoid.

Ltac unfold_ops :=
  unfold vadd, vsub, vmul, vdiv, vneg, vscale, vtimes, vover, vplus, vge,
    vgt, matvec, add_current, synaptic_current in *.

Ltac len :=
  repeat (progress (unfold_ops;
                    rewrite ?map2_length, ?length_map, ?where_length,
                      ?length_combine in * ));
  try lia.

Ltac views :=
  cbv [V U A Adot row set_V set_U set_A set_Adot set_VUA set_G set_traces
       set_fired set_currents set_Idyn par G VUA traces fired Isyn Idyn]
    in *;
  cbn [nth set_row] in *.

Ltac open_state o H :=
  let p := fresh "p" in
  let G0 := fresh "G0" in
  let S0 := fresh "S0" in
  let T0 := fresh "T0" in
  let f := fresh "f" in
  let isyn := fresh "isyn" in
  let idyn := fresh "idyn" in
  let Hp := fresh "Hp" in
  let HG := fresh "HG" in
  let HS := fresh "HS" in
  let HT := fresh "HT" in
  let Hf := fresh "Hf" in
  let v := fresh "v" in
  let u := fresh "u" in
  let a_ := fresh "a_" in
  let ad := fresh "ad" in
  let Hv := fresh "Hv" in
  let Hu := fresh "Hu" in
  let Ha := fresh "Ha" in
  let Had := fresh "Had" in
  destruct o as [p G0 S0 T0 f isyn idyn];
  destruct H as [Hp HG HS HT Hf]; simpl in Hp, HG, HS, HT, Hf;
  destruct (shape4_inv _ _ HS) as (v & u & a_ & ad & -> & Hv & Hu & Ha & Had).

Lemma deferred_reset_wf o : wf o -> wf (deferred_reset o).
Proof.
  intros H. open_state o H. destruct Hp.
  constructor; simpl; auto.
  - now constructor.
  - views. apply shape4_intro; len.
Qed.

Lemma channel_noise_wf nne o :
  wf o -> length nne = N (par o) -> wf (channel_noise nne o).
Proof.
  intros H Hn. open_state o H. simpl in Hn.
  constructor; simpl; auto.
  views. apply shape4_intro; len.
Qed.

Lemma stdp_wf dt o : wf o -> wf (stdp dt o).
Proof.
  intros H. unfold stdp.
  destruct (do_stdp (par o)); [|assumption].
  assert (Hdecay : forall o', wf o' ->
            wf (set_traces (decay_traces dt o' (traces o')) o')).
  { intros o' H'. destruct H' as [Hp HG HS HT Hf].
    constructor; simpl; auto.
    unfold decay_traces. apply shape_map2; auto.
    - intros; len.
    - now destruct Hp. }
  apply Hdecay.
  destruct (any (fired o)); [|assumption].
  destruct o as [p G0 S0 T0 f isyn idyn].
  destruct H as [Hp HG HS HT Hf]; simpl in Hp, HG, HS, HT, Hf.
  destruct (shape3_inv _ _ HT) as (tp & tm & ty & -> & Htp & Htm & Hty).
  constructor; simpl; auto.
  - unfold clip, scaling, potentiate, depress; views.
    apply shape_map; [intros; len|].
    apply shape_map2; [intros; len|lia|].
    apply shape_map2; [|len|].
    + intros [[|] q] x Hx; simpl; len.
    + apply shape_map; [intros; len|assumption].
  - split; [reflexivity|]. repeat constructor; len.
Qed.

Lemma VUAdot_shape Iin o :
  wf o -> wf_current (N (par o)) Iin ->
  shape 4 (N (par o)) (fst (VUAdot Iin o)).
Proof.
  intros H HI. open_state o H. destruct Hp. destruct HG as [HG _].
  unfold VUAdot; views; simpl.
  apply shape4_intro; destruct Iin; simpl in HI; len.
Qed.

Lemma VUAdot_state Iin o :
  snd (VUAdot Iin o)
  = set_currents (synaptic_current (G o) (A o) (Vn (par o)) (V o))
      (add_current
         (vsub (vmul (vmul (k (par o)) (vsub (V o) (Vr (par o))))
                  (vsub (V o) (Vt (par o))))
            (U o)) Iin) o.
Proof. reflexivity. Qed.

Lemma set_VUA_wf M o :
  wf o -> shape 4 (N (par o)) M -> wf (set_VUA M o).
Proof. intros [? ? ? ? ?] HM; constructor; simpl; auto. Qed.

Lemma set_currents_wf x y o : wf o -> wf (set_currents x y o).
Proof. intros [? ? ? ? ?]; constructor; simpl; auto. Qed.

Lemma midpoint_wf dt Iin o :
  wf o -> wf_current (N (par o)) Iin -> wf (midpoint dt Iin o).
Proof.
  intros H HI. unfold midpoint.
  pose proof (VUAdot_shape Iin o H HI) as Hk1.
  destruct (VUAdot Iin o) as [k1 o1] eqn:E1.
  assert (Eo1 : o1 = snd (VUAdot Iin o)) by now rewrite E1.
  rewrite VUAdot_state in Eo1. simpl in Hk1.
  assert (H1 : wf o1) by (subst o1; now apply set_currents_wf).
  assert (Hp1 : par o1 = par o) by now subst o1.
  set (o2 := set_VUA _ o1).
  assert (H2 : wf o2).
  { apply set_VUA_wf; auto. rewrite Hp1.
    apply shape_madd; [subst o1; simpl; apply H|].
    now apply shape_mover, shape_mtimes. }
  assert (Hp2 : par o2 = par o) by (subst o2; simpl; assumption).
  assert (HI2 : wf_current (N (par o2)) Iin) by now rewrite Hp2.
  pose proof (VUAdot_shape Iin o2 H2 HI2) as Hk2. rewrite Hp2 in Hk2.
  destruct (VUAdot Iin o2) as [k2 o3] eqn:E2.
  assert (Eo3 : o3 = snd (VUAdot Iin o2)) by now rewrite E2.
  rewrite VUAdot_state in Eo3. simpl in Hk2.
  assert (H3 : wf o3) by (rewrite Eo3; now apply set_currents_wf).
  assert (Hp3 : par o3 = par o) by (rewrite Eo3; simpl; assumption).
  apply set_VUA_wf; auto. rewrite Hp3.
  apply shape_madd.
  - rewrite <- Hp3. apply H3.
  - apply shape_msub; [now apply shape_mtimes|].
    now apply shape_mover, shape_mtimes.
Qed.

Lemma adjust_Idyn_wf o : wf o -> wf (adjust_Idyn o).
Proof. intros [? ? ? ? ?]; constructor; simpl; auto. Qed.

Lemma mark_fired_wf o : wf o -> wf (mark_fired o).
Proof.
  intros H. open_state o H. destruct Hp.
  constructor; simpl; auto.
  - now constructor.
  - views. apply shape4_intro; len.
  - views. len.
Qed.

Lemma par_stdp dt o : par (stdp dt o) = par o.
Proof.
  unfold stdp. destruct (do_stdp (par o)); [|reflexivity].
  destruct (any (fired o)); reflexivity.
Qed.

Lemma par_step dt Iin nne o : par (step dt Iin nne o) = par o.
Proof.
  change (par (step dt Iin nne o))
    with (par (stdp dt (channel_noise nne (deferred_reset o)))).
  now rewrite par_stdp.
Qed.

Lemma step_wf dt Iin nne o :
  wf o -> wf_current (N (par o)) Iin -> length nne = N (par o) ->
  wf (step dt Iin nne o).
Proof.
  intros H HI Hn. unfold step.
  apply mark_fired_wf, adjust_Idyn_wf.
  assert (H1 : wf (stdp dt (channel_noise nne (deferred_reset o)))).
  { apply stdp_wf, channel_noise_wf; [now apply deferred_reset_wf|].
    exact Hn. }
  apply midpoint_wf; auto.
  now rewrite par_stdp.
Qed.

(** ** Concrete runs *)

Example two_cells_init :
  init Backend.Numpy (Some [[0; 10]; [0; 0]]) [[0; 0]; [1 # 2; 0]]
    [3 # 100; 3 # 100] [-2 # 1; 8] [-50 # 1; -53 # 1] [100; 20] [100; 100]
    [7 # 10; 1] [-60 # 1; -56 # 1] [-40 # 1; -42 # 1] [35; 20]
    [0; -70 # 1] [5; 20] 1 (1 # 10) false 15 35 115 (65 # 10000)
    (7 # 1000) (1 # 10000)
  = inr resting.
Proof. reflexivity. Qed.

(** A strong current into cell 0 of the resting organoid makes it cross
    its peak in one call: it is marked and clamped to [Vp = 35]. *)
Example first_spike :
  fired (step (1 # 2) (PerCell [20000; 0]) [0%nat; 0%nat] resting)
  = [true; false]
  /\ map (map Qred)
       (VUA (step (1 # 2) (PerCell [20000; 0]) [0%nat; 0%nat] resting))
     = [[35; -56 # 1]; [-3 # 2; 0]; [0; 0]; [0; 0]].
Proof. split; vm_compute; reflexivity. Qed.

(** The call after the spike, with plasticity: only the scaling update
    changes [G] (the traces are still zero), and the traces of cell 0 are
    raised to 1 and decayed. *)
Example spike_plasticity :
  map (map Qred) (G (step (1 # 2) (Scalar 0) [0%nat; 0%nat] (spiking true)))
  = [[1 # 40000; 0]; [20001 # 40000; 0]]
  /\ map (map Qred)
       (traces (step (1 # 2) (Scalar 0) [0%nat; 0%nat] (spiking true)))
     = [[29 # 30; 0]; [69 # 70; 0]; [229 # 230; 0]].
Proof. split; vm_compute; reflexivity. Qed.

(** ** The deferred reset *)

Lemma stdp_VUA dt o : VUA (stdp dt o) = VUA o.
Proof.
  unfold stdp. destruct (do_stdp (par o)); [|reflexivity].
  destruct (any (fired o)); reflexivity.
Qed.

Lemma stdp_fired dt o : fired (stdp dt o) = fired o.
Proof.
  unfold stdp. destruct (do_stdp (par o)); [|reflexivity].
  destruct (any (fired o)); reflexivity.
Qed.

(** C1.  A [step] call is the deferred reset followed by the noise
    injection, the plasticity update, the midpoint integration, the
    correction of [Idyn] and the new spike marks, in this order.  For every
    cell [i] marked in [fired] the reset sets [V] to exactly [c], adds [d]
    to [U] and adds 1 to [Adot]; the noise is added to the [Adot] that the
    reset produced, and the plasticity update leaves the phase variables
    alone: the state [s0] at which the integration evaluates its first
    derivative has [V = c], [U] raised by [d], and [Adot] raised by 1 and
    the noise. *)
Theorem step_deferred_reset_first dt Iin nne o :
  wf o -> length nne = N (par o) ->
  let o1 := deferred_reset o in
  let o2 := channel_noise nne o1 in
  let s0 := stdp dt o2 in
  step dt Iin nne o = mark_fired (adjust_Idyn (midpoint dt Iin s0))
  /\ VUA s0 = VUA o2
  /\ (G o1 = G o /\ traces o1 = traces o /\ fired o1 = fired o)
  /\ forall i, (i < N (par o))%nat -> nth i (fired o) false = true ->
       (nth i (V o1) 0 = nth i (c (par o)) 0
        /\ nth i (U o1) 0 = nth i (U o) 0 + nth i (d (par o)) 0
        /\ nth i (Adot o1) 0 = nth i (Adot o) 0 + 1)
       /\ (nth i (V o2) 0 = nth i (c (par o)) 0
           /\ nth i (U o2) 0 = nth i (U o) 0 + nth i (d (par o)) 0
           /\ nth i (Adot o2) 0
              = nth i (Adot o) 0 + 1
                + noise_event_size (par o) * noise_at nne i).
Proof.
  intros H Hn o1 o2 s0.
  split; [reflexivity|].
  split; [apply stdp_VUA|].
  split; [repeat split|].
  intros i Hi Hfi.
  subst o2 o1.
  open_state o H. destruct Hp. simpl in Hn, Hi, Hfi.
  unfold channel_noise, deferred_reset; views; simpl.
  assert (E1 : nth i (where_ f (c p) v) 0 = nth i (c p) 0).
  { rewrite nth_where by lia. now rewrite Hfi. }
  assert (E2 : nth i (where_ f (vadd u (d p)) u) 0
               = nth i u 0 + nth i (d p) 0).
  { rewrite nth_where by len. rewrite Hfi.
    unfold vadd. now rewrite (nth_map2 _ _ _ _ 0 0) by lia. }
  assert (E3 : nth i (where_ f (vplus ad 1) ad) 0 = nth i ad 0 + 1).
  { rewrite nth_where by len. rewrite Hfi.
    unfold vplus. now rewrite (nth_map' _ _ _ 0) by lia. }
  repeat split; auto.
  unfold vadd.
  rewrite (nth_map2 _ _ _ _ 0 0) by len.
  rewrite E3. f_equal. unfold vscale.
  rewrite (nth_map' _ _ _ 0) by len. f_equal.
  unfold noise_at. now rewrite (nth_map' _ _ _ 0%nat) by lia.
Qed.

Lemma spiking_wf stdp_on : wf (spiking stdp_on).
Proof.
  constructor; simpl.
  - constructor; reflexivity.
  - split; [reflexivity|repeat constructor].
  - split; [reflexivity|repeat constructor].
  - split; [reflexivity|repeat constructor].
  - reflexivity.
Defined.

Lemma step_deferred_reset_first_witness :
  nth 0 (V (deferred_reset (spiking false))) 0 = -50 # 1
  /\ nth 0 (U (deferred_reset (spiking false))) 0 = (-3 # 2) + 100
  /\ nth 0 (Adot (channel_noise [3%nat; 0%nat]
                    (deferred_reset (spiking false)))) 0
     = 0 + 1 + (1 # 10) * 3.
Proof.
  destruct (step_deferred_reset_first (1 # 2) (Scalar 0) [3%nat; 0%nat]
              (spiking false) (spiking_wf false) eq_refl)
    as (_ & _ & _ & H).
  destruct (H 0%nat ltac:(simpl; lia) eq_refl)
    as ((HV & HU & _) & (_ & _ & HA)).
  exact (conj HV (conj HU HA)).
Defined.

(** ** Plasticity keeps the conductances non-negative *)




Lemma nth_clip M i j :
  nth j (nth i (clip M) []) 0 = clip0 (nth j (nth i M []) 0).
Proof.
  unfold clip.
  change (@nil Q) with (map clip0 []) at 1. rewrite map_nth.
  change 0 with (clip0 0) at 1. now rewrite map_nth.
Qed.

Lemma midpoint_G dt Iin o : G (midpoint dt Iin o) = G o.
Proof. reflexivity. Qed.

Lemma midpoint_traces dt Iin o : traces (midpoint dt Iin o) = traces o.
Proof. reflexivity. Qed.

Lemma step_G dt Iin nne o :
  G (step dt Iin nne o) = G (stdp dt (channel_noise nne (deferred_reset o))).
Proof. reflexivity. Qed.

Lemma step_traces dt Iin nne o :
  traces (step dt Iin nne o)
  = traces (stdp dt (channel_noise nne (deferred_reset o))).
Proof. reflexivity. Qed.

(** What a [step] call with plasticity enabled does to [G]. *)
Lemma step_G_stdp dt Iin nne o :
  do_stdp (par o) = true ->
  G (step dt Iin nne o)
  = if any (fired o)
    then clip (scaling dt o (potentiate o (depress o (G o))))
    else G o.
Proof.
  intros Hs. rewrite step_G. unfold stdp.
  change (do_stdp (par (channel_noise nne (deferred_reset o))))
    with (do_stdp (par o)).
  rewrite Hs.
  change (fired (channel_noise nne (deferred_reset o))) with (fired o).
  destruct (any (fired o)); reflexivity.
Qed.






(** ** The synaptic current *)

Lemma fold_seq_shift (f : nat -> Q) s n :
  fold_right (fun j acc => f j + acc) 0 (seq (S s) n)
  = fold_right (fun j acc => f (S j) + acc) 0 (seq s n).
Proof.
  revert s; induction n as [|n IH]; intros s; simpl; [reflexivity|].
  now rewrite IH.
Qed.

Lemma index_sum_S (f : nat -> Q) n :
  index_sum (S n) f = f 0%nat + index_sum n (fun j => f (S j)).
Proof. unfold index_sum. simpl. now rewrite fold_seq_shift. Qed.

Lemma index_sum_ext (f g : nat -> Q) n :
  (forall j, (j < n)%nat -> f j == g j) -> index_sum n f == index_sum n g.
Proof.
  revert f g; induction n as [|n IH]; intros f g Hfg; [reflexivity|].
  rewrite !index_sum_S. rewrite (Hfg 0%nat) by lia.
  rewrite (IH (fun j => f (S j)) (fun j => g (S j))); [reflexivity|].
  intros j Hj. apply Hfg. lia.
Qed.

Lemma index_sum_combine (f g : nat -> Q) (s : Q) n :
  index_sum n f - index_sum n g * s
  == index_sum n (fun j => f j - g j * s).
Proof.
  revert f g; induction n as [|n IH]; intros f g.
  - unfold index_sum; simpl. ring.
  - rewrite !index_sum_S.
    rewrite <- (IH (fun j => f (S j)) (fun j => g (S j))). ring.
Qed.

Lemma dot_index_sum r x n :
  length r = n -> length x = n ->
  dot r x == index_sum n (fun j => nth j r 0 * nth j x 0).
Proof.
  revert r x; induction n as [|n IH]; intros [|a r] [|b x] Hr Hx;
    simpl in Hr, Hx; try discriminate.
  - reflexivity.
  - rewrite index_sum_S. simpl nth.
    rewrite <- (IH r x) by lia. reflexivity.
Qed.

(** C3.  For an N x N matrix [G] and vectors [A], [Vn], [V] of length N,
    the vectorized synaptic current [G@(A * Vn) - (G@A) * V] has N entries,
    and its entry [i] equals the reference sum over [j] of
    G[i,j] * A_j * (Vn_j - V_i).  The derivative function stores exactly
    this vector as [Isyn]. *)
Theorem synaptic_current_is_reference n (G0 : mat) (A0 Vn0 V0 : vec) :
  shape n n G0 -> length A0 = n -> length Vn0 = n -> length V0 = n ->
  length (synaptic_current G0 A0 Vn0 V0) = n
  /\ (forall i, (i < n)%nat ->
        nth i (synaptic_current G0 A0 Vn0 V0) 0
        == Isyn_reference n G0 A0 Vn0 V0 i)
  /\ (forall Iin o,
        Isyn (snd (VUAdot Iin o))
        = Some (synaptic_current (G o) (A o) (Vn (par o)) (V o))).
Proof.
  intros [HG Hrows] HA HVn HV.
  split; [len|]. split; [|reflexivity].
  intros i Hi.
  assert (Hrow : length (nth i G0 []) = n).
  { rewrite Forall_forall in Hrows. apply Hrows, nth_In. lia. }
  unfold synaptic_current, vsub.
  rewrite (nth_map2 _ _ _ _ 0 0) by len.
  unfold vmul at 2. rewrite (nth_map2 _ _ _ _ 0 0) by len.
  unfold matvec.
  rewrite !(nth_map' (fun row => dot row _) G0 i []) by lia.
  rewrite (dot_index_sum _ _ n) by len.
  rewrite (dot_index_sum _ A0 n) by len.
  rewrite index_sum_combine.
  unfold Isyn_reference. apply index_sum_ext. intros j Hj.
  unfold vmul. rewrite (nth_map2 _ _ _ _ 0 0) by lia. ring.
Qed.

Lemma synaptic_current_is_reference_witness :
  nth 1 (synaptic_current [[0; 0]; [1 # 2; 0]] [3; 0] [0; -70 # 1]
           [-50 # 1; -56 # 1]) 0
  == Isyn_reference 2 [[0; 0]; [1 # 2; 0]] [3; 0] [0; -70 # 1]
       [-50 # 1; -56 # 1] 1.
Proof.
  apply (synaptic_current_is_reference 2 [[0; 0]; [1 # 2; 0]] [3; 0]
           [0; -70 # 1] [-50 # 1; -56 # 1]);
    try reflexivity; [|lia].
  split; [reflexivity|repeat constructor].
Defined.

(** ** The midpoint method *)

Lemma midpoint_rows dt n : forall s k1 k2 : list Q,
  length s = n -> length k1 = n -> length k2 = n ->
  veq (vadd (vadd s (vover (vtimes k1 dt) 2))
         (vsub (vtimes k2 dt) (vover (vtimes k1 dt) 2)))
      (vadd s (vtimes k2 dt)).
Proof.
  induction n as [|n IH]; intros [|x s] [|y k1] [|z k2] Hs H1 H2;
    simpl in Hs, H1, H2; try discriminate; simpl.
  - constructor.
  - constructor.
    + unfold Qdiv. ring.
    + apply IH; lia.
Qed.

Lemma midpoint_update dt r n : forall S K1 K2 : list (list Q),
  shape r n S -> shape r n K1 -> shape r n K2 ->
  meq (madd (madd S (mover (mtimes K1 dt) 2))
         (msub (mtimes K2 dt) (mover (mtimes K1 dt) 2)))
      (madd S (mtimes K2 dt)).
Proof.
  induction r as [|r IH]; intros [|s S] [|k1 K1] [|k2 K2]
    [HS HSr] [H1 H1r] [H2 H2r]; simpl in HS, H1, H2; try discriminate;
    simpl.
  - constructor.
  - inversion HSr; inversion H1r; inversion H2r; subst.
    constructor.
    + now apply (midpoint_rows dt (length s)).
    + apply IH; split; auto; lia.
Qed.



(** ** The clamp to the peak *)




(** ** Synaptic scaling *)

Lemma nth_scaling dt o M i j :
  wf o -> shape (N (par o)) (N (par o)) M ->
  (i < N (par o))%nat -> (j < N (par o))%nat ->
  nth j (nth i (scaling dt o M) []) 0
  = if Qle_bool (nth j (Vn (par o)) 0) (nth j (Vt (par o)) 0)
    then nth j (nth i M []) 0
    else nth j (nth i M []) 0
         - (nth i (row 2 (traces o)) 0 - (1 # 2)) * dt * Ascaling (par o).
Proof.
  intros H [HM Hrows] Hi Hj.
  destruct H as [Hp _ _ HT _]. destruct Hp.
  destruct (shape3_inv _ _ HT) as (tp & tm & ty & E & _ & _ & Hty).
  assert (Hrow : length (nth i M []) = N (par o)).
  { rewrite Forall_forall in Hrows. apply Hrows, nth_In. lia. }
  unfold scaling. rewrite E. unfold row; simpl nth.
  rewrite (nth_map2 _ _ _ _ 0 []) by lia.
  rewrite nth_where by len.
  unfold vgt. rewrite (nth_map2 _ _ _ _ 0 0) by lia.
  destruct (Qle_bool (nth j (Vn (par o)) 0) (nth j (Vt (par o)) 0));
    simpl; [reflexivity|].
  now rewrite (nth_map' _ _ _ 0) by lia.
Qed.

(** C6.  In a [step] call with plasticity enabled and some cell marked
    fired, [G] becomes the clipped result of the depression, potentiation
    and scaling updates, applied in this order.  The scaling update maps a
    matrix [M] to the matrix whose entry [(i, j)] is
    [M[i,j] - (trace_y[i] - 0.5) * dt * Ascaling] when [Vn[j] > Vt[j]], and
    [M[i,j]] when [Vn[j] <= Vt[j]]; [trace_y] is the third trace at the
    start of the call, indexed by the postsynaptic row [i]. *)
Theorem step_synaptic_scaling dt Iin nne o :
  wf o -> do_stdp (par o) = true -> any (fired o) = true ->
  G (step dt Iin nne o)
  = clip (scaling dt o (potentiate o (depress o (G o))))
  /\ forall M, shape (N (par o)) (N (par o)) M ->
     forall i j, (i < N (par o))%nat -> (j < N (par o))%nat ->
       (nth j (Vt (par o)) 0 < nth j (Vn (par o)) 0 ->
        nth j (nth i (scaling dt o M) []) 0
        = nth j (nth i M []) 0
          - (nth i (row 2 (traces o)) 0 - (1 # 2)) * dt * Ascaling (par o))
       /\ (nth j (Vn (par o)) 0 <= nth j (Vt (par o)) 0 ->
           nth j (nth i (scaling dt o M) []) 0 = nth j (nth i M []) 0).
Proof.
  intros H Hs Hf. split.
  - rewrite step_G_stdp by assumption. now rewrite Hf.
  - intros M HM i j Hi Hj.
    rewrite (nth_scaling dt o M i j H HM Hi Hj).
    destruct (Qle_bool (nth j (Vn (par o)) 0) (nth j (Vt (par o)) 0)) eqn:E.
    + apply Qle_bool_iff in E. split; [|reflexivity].
      intros Hlt. exfalso. apply (Qlt_not_le _ _ Hlt E).
    + split; [reflexivity|].
      intros Hle. apply Qle_bool_iff in Hle. congruence.
Qed.

Lemma step_synaptic_scaling_witness :
  nth 0 (nth 1 (scaling (1 # 2) (spiking true) (G (spiking true))) []) 0
  = (1 # 2) - (0 - (1 # 2)) * (1 # 2) * (1 # 10000)
  /\ nth 1 (nth 0 (scaling (1 # 2) (spiking true) (G (spiking true))) []) 0
     = 0.
Proof.
  destruct (step_synaptic_scaling (1 # 2) (Scalar 0) [0%nat; 0%nat]
              (spiking true) (spiking_wf true) eq_refl eq_refl)
    as [_ H].
  assert (HG : shape 2 2 (G (spiking true)))
    by (split; [reflexivity|repeat constructor]).
  split.
  - apply (H _ HG 1%nat 0%nat); [simpl; lia|simpl; lia|reflexivity].
  - apply (H _ HG 0%nat 1%nat); [simpl; lia|simpl; lia|discriminate].
Defined.

(** ** The frame of a call without plasticity *)

Lemma step_frame dt Iin nne o :
  do_stdp (par o) = false ->
  G (step dt Iin nne o) = G o /\ traces (step dt Iin nne o) = traces o.
Proof.
  intros Hs. rewrite step_G, step_traces. unfold stdp.
  change (do_stdp (par (channel_noise nne (deferred_reset o))))
    with (do_stdp (par o)).
  rewrite Hs. split; reflexivity.
Qed.

(** C9.  A [step] call with [do_stdp = False] leaves the weight matrix [G]
    and the three STDP traces exactly as they were, whatever the spike
    marks, the noise draw, the time step and the input current; so does
    any sequence of such calls. *)
Theorem step_without_stdp_keeps_G_and_traces o :
  do_stdp (par o) = false ->
  (forall dt Iin nne,
     G (step dt Iin nne o) = G o /\ traces (step dt Iin nne o) = traces o)
  /\ (forall calls,
        G (run calls o) = G o /\ traces (run calls o) = traces o).
Proof.
  intros Hs. split.
  - intros. now apply step_frame.
  - intros calls. revert o Hs.
    induction calls as [|[[dt Iin] nne] calls IH]; intros o Hs.
    + split; reflexivity.
    + destruct (step_frame dt Iin nne o Hs) as [EG ET].
      destruct (IH (step dt Iin nne o)) as [EG' ET'].
      * now rewrite par_step.
      * change (run ((dt, Iin, nne) :: calls) o)
          with (run calls (step dt Iin nne o)).
        rewrite EG', ET'. now split.
Qed.

Lemma step_without_stdp_keeps_G_and_traces_witness :
  G (step (1 # 2) (PerCell [20000; 0]) [2%nat; 1%nat] (spiking false))
  = [[0; 0]; [1 # 2; 0]]
  /\ traces (step (1 # 2) (PerCell [20000; 0]) [2%nat; 1%nat]
               (spiking false))
     = [[0; 0]; [0; 0]; [0; 0]].
Proof.
  apply (step_without_stdp_keeps_G_and_traces (spiking false) eq_refl).
Defined.

(** ** The torch backend without an accelerator *)

Lemma is_function_cases name :
  Backend.is_function name = true ->
  name = "stack"%string \/ name = "exp"%string \/ name = "sign"%string.
Proof.
  unfold Backend.is_function. intros H.
  apply orb_true_iff in H. destruct H as [H|H].
  - apply orb_true_iff in H. destruct H as [H|H].
    + left. now apply String.eqb_eq.
    + right; left. now apply String.eqb_eq.
  - right; right. now apply String.eqb_eq.
Qed.

(** On a host with torch installed and no CUDA device the torch backend
    builds its arrays on the host CPU, and an organoid is constructed with
    it: the code chooses [torch.FloatTensor] there (lines 34-35). *)
Lemma torch_backend_falls_back_to_cpu :
  Backend.cuda_available cpu_only_host = false
  /\ Backend.array (Backend.backend_torch cpu_only_host)
     = inr Backend.HostCPU
  /\ ~ fails_fast_without_accelerator.
Proof.
  split; [reflexivity|]. split; [reflexivity|].
  intros H. destruct (H cpu_only_host eq_refl) as [e He].
  discriminate He.
Qed.

(** C7, amended.  On a host without a CUDA device, the torch backend
    raises at first use exactly when torch cannot be imported: then every
    operation [array], [stack], [exp], [sign] raises the stored
    [ImportError], and so does the construction of an organoid, whose
    first statement calls [array].  When torch can be imported the backend
    works and builds its arrays on the host CPU. *)
Theorem torch_backend_without_accelerator h :
  Backend.cuda_available h = false ->
  (Backend.torch_importable h = false ->
   Backend.array (Backend.backend_torch h) = inl Backend.ImportError
   /\ (forall name, Backend.is_function name = true ->
         Backend.getattr (Backend.backend_torch h) name
         = inl Backend.ImportError)
   /\ (forall XY0 G0 a0 b0 c0 d0 C0 k0 Vr0 Vt0 Vp0 Vn0 tau0 rate size
              do_stdp0 tau_plus tau_minus tau_y Aplus0 Aminus0 Ascaling0,
         init (Backend.backend_torch h) XY0 G0 a0 b0 c0 d0 C0 k0 Vr0 Vt0
           Vp0 Vn0 tau0 rate size do_stdp0 tau_plus tau_minus tau_y Aplus0
           Aminus0 Ascaling0
         = inl Backend.ImportError))
  /\ (Backend.torch_importable h = true ->
      Backend.array (Backend.backend_torch h) = inr Backend.HostCPU
      /\ (forall name, Backend.is_function name = true ->
            Backend.getattr (Backend.backend_torch h) name
            = inr (Backend.LibraryFunction name))
      /\ (forall XY0 G0 a0 b0 c0 d0 C0 k0 Vr0 Vt0 Vp0 Vn0 tau0 rate size
                 do_stdp0 tau_plus tau_minus tau_y Aplus0 Aminus0 Ascaling0,
            exists o,
              init (Backend.backend_torch h) XY0 G0 a0 b0 c0 d0 C0 k0 Vr0
                Vt0 Vp0 Vn0 tau0 rate size do_stdp0 tau_plus tau_minus
                tau_y Aplus0 Aminus0 Ascaling0
              = inr o)).
Proof.
  destruct h as [importable cuda]; simpl. intros ->.
  split; intros ->.
  - split; [reflexivity|]. split; [|reflexivity].
    intros name Hn.
    destruct (is_function_cases name Hn) as [-> | [-> | ->]]; reflexivity.
  - split; [reflexivity|]. split.
    + intros name Hn.
      destruct (is_function_cases name Hn) as [-> | [-> | ->]]; reflexivity.
    + intros. eexists. reflexivity.
Qed.

Lemma torch_backend_without_accelerator_witness :
  Backend.array (Backend.backend_torch torchless_host)
  = inl Backend.ImportError
  /\ Backend.array (Backend.backend_torch cpu_only_host)
     = inr Backend.HostCPU.
Proof.
  split.
  - apply (torch_backend_without_accelerator torchless_host eq_refl).
    reflexivity.
  - apply (torch_backend_without_accelerator cpu_only_host eq_refl).
    reflexivity.
Defined.

(** ** [probe] before [probe_at] *)

Section Probe.

Variable sqrtQ : Q -> Q.
Variable gaussian_filter : Q * Q -> mat -> mat.
Variable eq_truth :
  option ChargedMedium.ndarray -> ChargedMedium.ndarray ->
  ChargedMedium.result bool.

Lemma init_points Xgrid Ygrid D0 eps_rel m :
  ChargedMedium.init sqrtQ Xgrid Ygrid D0 eps_rel = inr m ->
  ChargedMedium._points m = None.
Proof.
  unfold ChargedMedium.init.
  destruct Xgrid as [|x0 [|x1 Xs]]; try discriminate.
  destruct Ygrid as [|y0 [|y1 Ys]]; try discriminate.
  intros E. inversion E. reflexivity.
Qed.

Lemma immerse_points organoid m m' :
  ChargedMedium.immerse organoid m = inr m' ->
  ChargedMedium._points m' = ChargedMedium._points m.
Proof.
  unfold ChargedMedium.immerse, ChargedMedium.bind, ChargedMedium.attr.
  destruct (XY (par organoid)); try discriminate.
  destruct (ChargedMedium.nearest _ _); try discriminate.
  destruct (ChargedMedium.nearest _ _); try discriminate.
  intros E. inversion E. reflexivity.
Qed.

Lemma step_points dt organoid m m' warned :
  ChargedMedium.step sqrtQ gaussian_filter dt organoid m = inr (m', warned) ->
  ChargedMedium._points m' = ChargedMedium._points m.
Proof.
  unfold ChargedMedium.step, ChargedMedium.bind, ChargedMedium.attr.
  destruct (ChargedMedium.org m); try discriminate.
  destruct (ChargedMedium.Vprev m); try discriminate.
  destruct (ChargedMedium._neuron_grid m); try discriminate.
  destruct (ChargedMedium.scatter_add _ _ _ _); try discriminate.
  intros E. inversion E. reflexivity.
Qed.

Lemma never_probed_points m :
  never_probed sqrtQ gaussian_filter m -> ChargedMedium._points m = None.
Proof.
  induction 1 as [X0 Y0 D0 e m E | o m m' _ IH E | dt o m m' w _ IH E].
  - exact (init_points _ _ _ _ _ E).
  - rewrite (immerse_points _ _ _ E). exact IH.
  - rewrite (step_points _ _ _ _ _ E). exact IH.
Qed.

(** C10.  On a medium on which [probe_at] has never been called, that is,
    one obtained from the constructor by calls of [immerse] and [step], a
    call of [probe] with explicit probe points raises [AttributeError] and
    returns no potentials: the attribute [_points] is read, to build the
    tuple of the membership test, before it has ever been assigned.  (The
    call without points raises in the same way.) *)
Theorem probe_before_probe_at_raises m :
  never_probed sqrtQ gaussian_filter m ->
  ChargedMedium._points m = None
  /\ (forall points organoid,
        ChargedMedium.probe sqrtQ eq_truth (Some points) organoid m
        = inl Backend.AttributeError)
  /\ (forall organoid,
        ChargedMedium.probe sqrtQ eq_truth None organoid m
        = inl Backend.AttributeError).
Proof.
  intros H. pose proof (never_probed_points m H) as E.
  split; [exact E|].
  split; intros; unfold ChargedMedium.probe; rewrite E; reflexivity.
Qed.

End Probe.

Lemma still_immersed_never_probed :
  exists m, still_immersed = inr m
            /\ never_probed sqrt_floor smooth_filter m.
Proof.
  unfold still_immersed, still_medium.
  destruct (ChargedMedium.init sqrt_floor [0; 10; 20] [0; 10; 20] 0 80)
    as [e|m0] eqn:E0; [discriminate E0|].
  unfold ChargedMedium.bind.
  destruct (ChargedMedium.immerse (spiking false) m0) as [e|m1] eqn:E1.
  - exfalso. cbv [ChargedMedium.init ChargedMedium.ret] in E0.
    injection E0 as <-. vm_compute in E1. discriminate E1.
  - exists m1. split; [reflexivity|].
    eapply np_immerse; [eapply np_init; exact E0|exact E1].
Defined.

Lemma probe_before_probe_at_raises_witness :
  ChargedMedium.bind still_immersed
    (ChargedMedium.probe sqrt_floor array_truth (Some two_points)
       (spiking false))
  = inl Backend.AttributeError.
Proof.
  destruct still_immersed_never_probed as (m & -> & Hm).
  apply (probe_before_probe_at_raises sqrt_floor smooth_filter array_truth
           m Hm).
Defined.

(** ** Charge deposited by the scatter-add *)

Lemma add_nth_length j q r :
  length (ChargedMedium.add_nth j q r) = length r.
Proof.
  revert j; induction r as [|x r IH]; intros [|j]; simpl; auto.
Qed.

Lemma nth_add_nth j q r j' :
  (j < length r)%nat ->
  nth j' (ChargedMedium.add_nth j q r) 0
  == nth j' r 0 + (if (j =? j')%nat then q else 0).
Proof.
  revert j j'; induction r as [|x r IH]; intros [|j] [|j'] Hj;
    simpl in Hj |- *; try lia; try ring.
  apply IH. lia.
Qed.

Lemma vsum_add_nth j q r :
  (j < length r)%nat ->
  vsum (ChargedMedium.add_nth j q r) == vsum r + q.
Proof.
  revert j; induction r as [|x r IH]; intros [|j] Hj; simpl in Hj |- *;
    try lia.
  - ring.
  - rewrite IH by lia. ring.
Qed.

Lemma add_at_shape nx ny x y q M :
  shape nx ny M -> shape nx ny (ChargedMedium.add_at x y q M).
Proof.
  intros [HM Hr]. revert nx x HM.
  induction Hr as [|r M Hrow Hr IH]; intros nx [|x] HM; simpl in *;
    try (split; [assumption|constructor]; fail).
  - split; [assumption|]. constructor; [|assumption].
    now rewrite add_nth_length.
  - destruct (IH (length M) x eq_refl) as [Hl HF].
    split; [simpl; lia|]. now constructor.
Qed.

Lemma nth_add_at x y q M x' y' :
  (x < length M)%nat -> (y < length (nth x M []))%nat ->
  nth y' (nth x' (ChargedMedium.add_at x y q M) []) 0
  == nth y' (nth x' M []) 0
     + (if (x =? x')%nat && (y =? y')%nat then q else 0).
Proof.
  revert x x'; induction M as [|r M IH]; intros [|x] [|x'] Hx Hy;
    simpl in Hx, Hy |- *; try lia.
  - now apply nth_add_nth.
  - ring.
  - ring.
  - apply IH; [lia|assumption].
Qed.

Lemma grid_sum_add_at x y q M :
  (x < length M)%nat -> (y < length (nth x M []))%nat ->
  grid_sum (ChargedMedium.add_at x y q M) == grid_sum M + q.
Proof.
  unfold grid_sum.
  revert x; induction M as [|r M IH]; intros [|x] Hx Hy;
    simpl in Hx, Hy |- *; try lia.
  - rewrite vsum_add_nth by assumption. ring.
  - rewrite IH by (lia || assumption). ring.
Qed.

Lemma shape_row nx ny M x :
  shape nx ny M -> (x < nx)%nat -> length (nth x M []) = ny.
Proof.
  intros [HM Hr] Hx. rewrite Forall_forall in Hr.
  apply Hr, nth_In. lia.
Qed.

(** The scatter-add succeeds on indices inside the grid, deposits at each
    grid cell the sum of the increments quantized to it, and raises the
    grid sum by the sum of all increments. *)
Lemma scatter_add_spec nx ny : forall charge xs ys M,
  length xs = length charge -> length ys = length charge ->
  shape nx ny M ->
  Forall (fun x => (x < nx)%nat) xs -> Forall (fun y => (y < ny)%nat) ys ->
  exists M',
    ChargedMedium.scatter_add charge xs ys M = inr M'
    /\ shape nx ny M'
    /\ (forall x y,
          nth y (nth x M' []) 0
          == nth y (nth x M []) 0 + deposited x y charge xs ys)
    /\ grid_sum M' == grid_sum M + vsum charge.
Proof.
  induction charge as [|q charge IH]; intros [|x xs] [|y ys] M Hxs Hys HM
    Fx Fy; simpl in Hxs, Hys; try discriminate.
  - exists M. split; [reflexivity|]. split; [assumption|].
    split; [intros; simpl; ring|simpl; ring].
  - inversion Fx as [|? ? Hx Fx']; inversion Fy as [|? ? Hy Fy']; subst.
    assert (Hrow : length (nth x M []) = ny) by now apply (shape_row nx).
    assert (HxM : (x < length M)%nat) by (destruct HM; lia).
    assert (Hin : ChargedMedium.in_shape x y M = true).
    { unfold ChargedMedium.in_shape. apply andb_true_iff.
      split; apply Nat.ltb_lt; lia. }
    destruct (IH xs ys (ChargedMedium.add_at x y q M))
      as (M' & E & HM' & Hcell & Hsum); try lia; auto.
    { now apply add_at_shape. }
    exists M'. simpl. rewrite Hin. split; [exact E|].
    split; [assumption|]. split.
    + intros x' y'. rewrite Hcell.
      rewrite nth_add_at by lia. ring.
    + rewrite Hsum. rewrite grid_sum_add_at by lia. ring.
Qed.

(** ** Charge conservation of [ChargedMedium.step] *)

Lemma V_length o : wf o -> length (V o) = N (par o).
Proof.
  intros H.
  destruct (shape4_inv _ _ (wf_VUA _ H)) as (v & u & a_ & ad & E & Hv & _).
  unfold V, row. now rewrite E.
Qed.

Section Conservation.

Variable sqrtQ : Q -> Q.
Variable gaussian_filter : Q * Q -> mat -> mat.

(** What the theorem assumes of the library: the square root of zero is
    zero, and a Gaussian filter of zero width on both axes returns its
    input. *)
Hypothesis sqrt_zero : sqrtQ 0 == 0.
Hypothesis filter_zero_width :
  forall (s : Q * Q) (M : mat),
    fst s == 0 -> snd s == 0 -> gaussian_filter s M = M.

Lemma no_diffusion_width dt dx0 :
  sqrtQ (2 * 0) / dx0 * sqrtQ dt == 0.
Proof.
  change (2 * 0) with 0. rewrite sqrt_zero. unfold Qdiv. ring.
Qed.

Lemma no_diffusion_warns s : s == 0 -> negb (Qle_bool 1 (4 * s)) = true.
Proof.
  intros Hs. destruct (Qle_bool 1 (4 * s)) eqn:E; [|reflexivity].
  apply Qle_bool_iff in E. rewrite Hs in E.
  exfalso. apply (Qlt_not_le (4 * 0) 1); [reflexivity|exact E].
Qed.

(** C8.  In a [step] call of a medium in which an organoid is immersed,
    neuron [i] contributes the increment
    [C_i * (Vprev_i - V_i) / (dx * dy)] at the grid cell [(xs_i, ys_i)]
    that [immerse] precomputed, the cell nearest to it on each axis; the
    scatter-add succeeds and adds to each grid cell the sum of the
    increments of the neurons quantized to it; the field is then filtered
    and the voltage snapshot renewed.
    When [D = 0], where the filter has zero width, the call issues its
    warning, leaves the scattered field as it is, and the sum of the field
    over the grid has grown by the sum of all increments, in exact
    arithmetic. *)
Theorem medium_step_conserves_charge dt organoid xy m vprev xs ys :
  wf organoid ->
  XY (par organoid) = Some xy ->
  immersed sqrtQ (N (par organoid)) xy m vprev xs ys ->
  let charge := ChargedMedium.charge_of organoid vprev m in
  let width := (fst (ChargedMedium.sigma m) * sqrtQ dt,
                snd (ChargedMedium.sigma m) * sqrtQ dt) in
  (forall i, (i < N (par organoid))%nat ->
     nth i charge 0
     = nth i (C (par organoid)) 0
       * (nth i vprev 0 - nth i (V organoid) 0)
       / (ChargedMedium.dx m * ChargedMedium.dy m))
  /\ exists rho1,
       ChargedMedium.scatter_add charge xs ys (ChargedMedium.rho m)
       = inr rho1
       /\ (forall x y,
             nth y (nth x rho1 []) 0
             == nth y (nth x (ChargedMedium.rho m) []) 0
                + deposited x y charge xs ys)
       /\ (exists warned,
             ChargedMedium.step sqrtQ gaussian_filter dt organoid m
             = inr (ChargedMedium.set_Vprev (V organoid)
                      (ChargedMedium.set_rho (gaussian_filter width rho1) m),
                    warned))
       /\ (ChargedMedium.D m = 0 ->
           ChargedMedium.step sqrtQ gaussian_filter dt organoid m
           = inr (ChargedMedium.set_Vprev (V organoid)
                    (ChargedMedium.set_rho rho1 m),
                  true)
           /\ grid_sum rho1
              == grid_sum (ChargedMedium.rho m) + vsum charge).
Proof.
  intros Hwf _ Him charge width.
  destruct Him as [Horg HVp Hng Hrho Hsig Hvl Hxl Hyl Hxs Hys _ _].
  pose proof (V_length organoid Hwf) as HV.
  pose proof (wf_C _ (wf_par _ Hwf)) as HC.
  assert (Hcl : length charge = N (par organoid)).
  { subst charge. unfold ChargedMedium.charge_of. len. }
  split.
  { intros i Hi. subst charge. unfold ChargedMedium.charge_of, vover.
    rewrite (nth_map' _ _ _ 0) by len.
    unfold vmul. rewrite (nth_map2 _ _ _ _ 0 0) by len.
    unfold vsub. now rewrite (nth_map2 _ _ _ _ 0 0) by lia. }
  destruct (scatter_add_spec (length (ChargedMedium.X m))
              (length (ChargedMedium.Y m)) charge xs ys (ChargedMedium.rho m))
    as (rho1 & E & Hshape & Hcell & Hsum); try lia; auto.
  exists rho1. split; [exact E|]. split; [exact Hcell|].
  assert (Estep : forall warned0,
            warned0 = (negb (Qle_bool 1 (4 * fst width))
                       || negb (Qle_bool 1 (4 * snd width))) ->
            ChargedMedium.step sqrtQ gaussian_filter dt organoid m
            = inr (ChargedMedium.set_Vprev (V organoid)
                     (ChargedMedium.set_rho (gaussian_filter width rho1) m),
                   warned0)).
  { intros warned0 ->. unfold ChargedMedium.step.
    rewrite Horg, HVp, Hng. simpl.
    fold charge. rewrite E. reflexivity. }
  split; [eexists; now apply Estep|].
  intros HD. split; [|exact Hsum].
  assert (Hw1 : fst width == 0).
  { subst width. rewrite Hsig, HD. simpl. apply no_diffusion_width. }
  assert (Hw2 : snd width == 0).
  { subst width. rewrite Hsig, HD. simpl. apply no_diffusion_width. }
  rewrite (Estep true).
  - now rewrite (filter_zero_width width rho1 Hw1 Hw2).
  - now rewrite (no_diffusion_warns _ Hw1).
Qed.

End Conservation.

(** ** [immerse] establishes the hypotheses of the conservation theorem *)

Lemma argmin_from_bound l : forall best_i best i,
  (best_i < i)%nat ->
  (ChargedMedium.argmin_from best_i best i l < i + length l)%nat.
Proof.
  induction l as [|x l IH]; intros best_i best i Hb; simpl; [lia|].
  destruct (Qle_bool best x).
  - specialize (IH best_i best (S i)). lia.
  - specialize (IH i x (S i)). lia.
Qed.

Lemma argmin_bound l i :
  ChargedMedium.argmin l = inr i -> (i < length l)%nat.
Proof.
  destruct l as [|x l]; simpl; [discriminate|].
  intros E. injection E as <-.
  pose proof (argmin_from_bound l 0%nat x 1%nat). lia.
Qed.

Lemma argmin_from_least l : forall pre best_i best i,
  length pre = i -> (best_i < i)%nat ->
  nth best_i (pre ++ l) 0 = best ->
  (forall y, In y pre -> best <= y) ->
  forall y, In y (pre ++ l) ->
    nth (ChargedMedium.argmin_from best_i best i l) (pre ++ l) 0 <= y.
Proof.
  induction l as [|x l IH]; intros pre best_i best i Hpre Hb Hbest Hmin y Hy.
  - simpl. rewrite Hbest. rewrite app_nil_r in Hy. now apply Hmin.
  - simpl ChargedMedium.argmin_from.
    assert (Eapp : pre ++ x :: l = (pre ++ [x]) ++ l)
      by (now rewrite <- app_assoc).
    rewrite Eapp in Hy |- *.
    destruct (Qle_bool best x) eqn:E.
    + apply Qle_bool_iff in E.
      apply (IH (pre ++ [x]) best_i best (S i)); auto.
      * rewrite length_app; simpl; lia.
      * now rewrite <- Eapp.
      * intros z Hz. apply in_app_or in Hz. destruct Hz as [Hz|[<-|[]]];
          auto.
    + assert (Hlt : x < best).
      { apply Qnot_le_lt. intros Hle. apply Qle_bool_iff in Hle.
        congruence. }
      apply (IH (pre ++ [x]) i x (S i)); auto.
      * rewrite length_app; simpl; lia.
      * rewrite <- Eapp. rewrite app_nth2 by lia.
        replace (i - length pre)%nat with 0%nat by lia. reflexivity.
      * intros z Hz. apply in_app_or in Hz. destruct Hz as [Hz|[<-|[]]].
        -- apply Qlt_le_weak. apply (Qlt_le_trans _ best); auto.
        -- apply Qle_refl.
Qed.

Lemma argmin_least l i :
  ChargedMedium.argmin l = inr i -> forall y, In y l -> nth i l 0 <= y.
Proof.
  destruct l as [|x l]; simpl ChargedMedium.argmin; [discriminate|].
  intros E y Hy. injection E as <-.
  apply (argmin_from_least l [x] 0%nat x 1%nat); auto.
  intros z [<-|[]]. apply Qle_refl.
Qed.

Lemma nearest_spec grid : grid <> [] -> forall xs,
  exists idx,
    ChargedMedium.nearest grid xs = inr idx
    /\ length idx = length xs
    /\ Forall (fun i => (i < length grid)%nat) idx
    /\ forall i, (i < length xs)%nat ->
         nearest_to grid (nth i xs 0) (nth i idx 0%nat).
Proof.
  intros Hg. induction xs as [|x xs (idx & E & Hl & HF & Hnear)].
  - exists []. repeat split; try constructor. simpl; intros; lia.
  - destruct (ChargedMedium.argmin (map (fun g => Qabs (x - g)) grid))
      as [e|i] eqn:Ei.
    + destruct grid; [congruence|discriminate Ei].
    + exists (i :: idx).
      pose proof (argmin_bound _ _ Ei) as Hi. rewrite length_map in Hi.
      split; [|split; [|split]].
      * cbn [ChargedMedium.nearest]. rewrite Ei, E. reflexivity.
      * simpl. now rewrite Hl.
      * constructor; assumption.
      * intros [|j] Hj; simpl in Hj |- *.
        -- intros g Hgin.
           pose proof (argmin_least _ _ Ei (Qabs (x - g))
                         (in_map (fun g => Qabs (x - g)) grid g Hgin)) as H.
           rewrite (nth_map' (fun g => Qabs (x - g)) grid i 0 0) in H by lia.
           exact H.
        -- apply Hnear. lia.
Qed.

Lemma immerse_immersed sqrtQ Xgrid Ygrid D0 eps_rel organoid xy m0 :
  wf organoid ->
  XY (par organoid) = Some xy -> shape 2 (N (par organoid)) xy ->
  ChargedMedium.init sqrtQ Xgrid Ygrid D0 eps_rel = inr m0 ->
  exists m1 gx gy,
    ChargedMedium.immerse organoid m0 = inr m1
    /\ ChargedMedium.D m1 = D0
    /\ immersed sqrtQ (N (par organoid)) xy m1 (V organoid) gx gy.
Proof.
  intros Hwf Hxy [Hxyl Hxyr] Hinit.
  destruct xy as [|px [|py [|? ?]]]; simpl in Hxyl; try lia.
  inversion Hxyr as [|? ? Hpx Hr1]; subst.
  inversion Hr1 as [|? ? Hpy _]; subst.
  unfold ChargedMedium.init in Hinit.
  destruct Xgrid as [|x0 [|x1 Xs]]; try discriminate.
  destruct Ygrid as [|y0 [|y1 Ys]]; try discriminate.
  injection Hinit as <-.
  destruct (nearest_spec (x0 :: x1 :: Xs) ltac:(discriminate) px)
    as (gx & Ex & Hgx & HFx & Hnx).
  destruct (nearest_spec (y0 :: y1 :: Ys) ltac:(discriminate) py)
    as (gy & Ey & Hgy & HFy & Hny).
  eexists _, gx, gy. split.
  - unfold ChargedMedium.immerse. rewrite Hxy. simpl ChargedMedium.attr.
    unfold ChargedMedium.bind at 1.
    unfold row. cbn [nth ChargedMedium.X ChargedMedium.Y].
    rewrite Ex. unfold ChargedMedium.bind at 1. rewrite Ey.
    reflexivity.
  - split; [reflexivity|].
    constructor; cbn [ChargedMedium.bind_org ChargedMedium.org
      ChargedMedium.Vprev ChargedMedium._neuron_grid ChargedMedium.rho
      ChargedMedium.sigma ChargedMedium.X ChargedMedium.Y ChargedMedium.D
      ChargedMedium.dx ChargedMedium.dy]; auto.
    + assert (Hrow : length (0 :: 0 :: map (fun _ : Q => 0) Ys)
                     = length (y0 :: y1 :: Ys))
        by (simpl; now rewrite length_map).
      split; [simpl; now rewrite length_map|].
      constructor; [exact Hrow|]. constructor; [exact Hrow|].
      apply Forall_forall. intros r Hr.
      apply in_map_iff in Hr. destruct Hr as (? & <- & _).
      exact Hrow.
    + now apply V_length.
    + lia.
    + lia.
    + intros i Hi. apply Hnx. lia.
    + intros i Hi. apply Hny. lia.
Qed.

(** ** The conservation theorem on the example medium *)

Lemma sqrt_floor_zero : sqrt_floor 0 == 0.
Proof. reflexivity. Defined.

Lemma smooth_filter_zero_width (s : Q * Q) (M : list (list Q)) :
  fst s == 0 -> snd s == 0 -> smooth_filter s M = M.
Proof.
  intros H1 H2.
  assert (E : forall q, q == 0 -> Qle_bool q (1 # 1000000000000000) = true).
  { intros q Hq. apply Qle_bool_iff. rewrite Hq. discriminate. }
  unfold smooth_filter. rewrite (E _ H1).
  rewrite <- (map_id M) at 2. apply map_ext.
  intros r. unfold smooth_axis. now rewrite (E _ H2).
Defined.

Lemma stepped_wf : wf stepped.
Proof.
  apply step_wf; [apply spiking_wf|exact I|reflexivity].
Defined.

Lemma medium_step_conserves_charge_witness :
  exists m rho1,
    still_immersed = inr m
    /\ ChargedMedium.step sqrt_floor smooth_filter (1 # 2) stepped m
       = inr (ChargedMedium.set_Vprev (V stepped)
                (ChargedMedium.set_rho rho1 m), true)
    /\ grid_sum rho1
       == grid_sum (ChargedMedium.rho m)
          + vsum (ChargedMedium.charge_of stepped (V (spiking false)) m).
Proof.
  unfold still_immersed, still_medium.
  destruct (ChargedMedium.init sqrt_floor [0; 10; 20] [0; 10; 20] 0 80)
    as [e|m0] eqn:E0; [discriminate E0|].
  assert (Hxy : shape 2 (N (par (spiking false))) [[0; 10]; [0; 0]])
    by (split; [reflexivity|repeat constructor]).
  destruct (immerse_immersed sqrt_floor _ _ _ _ (spiking false)
              [[0; 10]; [0; 0]] m0 (spiking_wf false) eq_refl Hxy E0)
    as (m1 & gx & gy & E1 & HD & Him).
  unfold ChargedMedium.bind. rewrite E1.
  destruct (medium_step_conserves_charge sqrt_floor smooth_filter
              sqrt_floor_zero smooth_filter_zero_width (1 # 2) stepped
              [[0; 10]; [0; 0]] m1 (V (spiking false)) gx gy stepped_wf
              eq_refl Him)
    as (_ & rho1 & _ & _ & _ & H0).
  destruct (H0 HD) as [Estep Hsum].
  exists m1, rho1. split; [reflexivity|]. split; [exact Estep|exact Hsum].
Defined.

(** ** [reset] and [__init__] *)

Lemma map_const_zeros (r : list Q) :
  map (fun _ => 0) r = zeros (length r).
Proof. induction r as [|x r IH]; simpl; [reflexivity|now rewrite IH]. Qed.

Lemma any_false_nth m :
  any m = false -> forall i, nth i m false = false.
Proof.
  induction m as [|b m IH]; intros H [|i]; simpl in *; auto.
  - now destruct b.
  - apply IH. now destruct b.
Qed.

Lemma vge_all_false x y :
  Forall2 (fun a b => a < b) x y -> any (vge x y) = false.
Proof.
  induction 1 as [|a b x y Hab _ IH]; simpl; [reflexivity|].
  fold (vge x y). fold (any (vge x y)). rewrite IH.
  destruct (Qle_bool b a) eqn:E; [|reflexivity].
  apply Qle_bool_iff in E. exfalso. apply (Qlt_not_le _ _ Hab E).
Qed.

Lemma reset_wf o : wf o -> wf (reset o).
Proof.
  intros H. open_state o H. destruct Hp.
  unfold reset; views; simpl.
  constructor; simpl; auto.
  - now constructor.
  - apply shape4_intro; try (now rewrite length_map). assumption.
  - unfold vge. rewrite map2_length. lia.
Qed.

(** [reset] puts every cell at its resting potential [Vr] with [U], [A]
    and [Adot] exactly zero, marks the cells whose [Vr] is at or above the
    peak [Vp] (none, when every [Vr] is below [Vp]), leaves [G], the traces
    and the parameters alone, and is idempotent. *)
Theorem reset_puts_cells_at_rest o :
  wf o ->
  V (reset o) = Vr (par o)
  /\ U (reset o) = zeros (N (par o))
  /\ A (reset o) = zeros (N (par o))
  /\ Adot (reset o) = zeros (N (par o))
  /\ fired (reset o) = vge (Vr (par o)) (Vp (par o))
  /\ (Forall2 (fun r p => r < p) (Vr (par o)) (Vp (par o)) ->
      any (fired (reset o)) = false)
  /\ (G (reset o) = G o /\ traces (reset o) = traces o
      /\ par (reset o) = par o)
  /\ reset (reset o) = reset o.
Proof.
  intros H. open_state o H.
  unfold reset; views; simpl.
  rewrite !map_const_zeros, Hu, Ha, Had.
  split; [reflexivity|]. split; [reflexivity|]. split; [reflexivity|].
  split; [reflexivity|]. split; [reflexivity|].
  split; [apply vge_all_false|].
  split; [repeat split|].
  unfold zeros. rewrite !repeat_length. reflexivity.
Qed.

Lemma reset_puts_cells_at_rest_witness :
  V (reset (spiking false)) = [-60 # 1; -56 # 1]
  /\ U (reset (spiking false)) = [0; 0]
  /\ fired (reset (spiking false)) = [false; false].
Proof.
  destruct (reset_puts_cells_at_rest (spiking false) (spiking_wf false))
    as (HV & HU & _ & _ & HF & _).
  exact (conj HV (conj HU HF)).
Defined.

(** [__init__] with a backend whose [array] works and arguments of
    matching shapes builds an organoid of as many cells as [G] has rows,
    with all shapes right, every cell at rest, zero traces, and no [Isyn]
    or [Idyn] yet; with a backend whose [array] raises, the exception
    leaves no object. *)
Theorem init_builds_resting_organoid backend XY0 G0 a0 b0 c0 d0 C0 k0 Vr0
    Vt0 Vp0 Vn0 tau0 rate size do_stdp0 tau_plus tau_minus tau_y Aplus0
    Aminus0 Ascaling0 :
  let n := length G0 in
  shape n n G0 ->
  length a0 = n -> length b0 = n -> length c0 = n -> length d0 = n ->
  length C0 = n -> length k0 = n -> length Vr0 = n -> length Vt0 = n ->
  length Vp0 = n -> length Vn0 = n -> length tau0 = n ->
  (forall e, Backend.array backend = inl e ->
     init backend XY0 G0 a0 b0 c0 d0 C0 k0 Vr0 Vt0 Vp0 Vn0 tau0 rate size
       do_stdp0 tau_plus tau_minus tau_y Aplus0 Aminus0 Ascaling0
     = inl e)
  /\ (forall dev, Backend.array backend = inr dev ->
      exists o,
        init backend XY0 G0 a0 b0 c0 d0 C0 k0 Vr0 Vt0 Vp0 Vn0 tau0 rate
          size do_stdp0 tau_plus tau_minus tau_y Aplus0 Aminus0 Ascaling0
        = inr o
        /\ wf o /\ N (par o) = n /\ G o = G0
        /\ V o = Vr0 /\ U o = zeros n /\ A o = zeros n /\ Adot o = zeros n
        /\ traces o = [zeros n; zeros n; zeros n]
        /\ fired o = vge Vr0 Vp0
        /\ Isyn o = None /\ Idyn o = None).
Proof.
  intros n HG Ha Hb Hc Hd HC Hk HVr HVt HVp HVn Htau.
  split; intros x Hx; unfold init; rewrite Hx; [reflexivity|].
  fold n.
  set (p := mkParams backend n XY0 a0 b0 c0 d0 C0 k0 Vr0 Vt0 Vp0 Vn0 tau0
              size rate do_stdp0 [tau_plus; tau_minus; tau_y] Aplus0
              Aminus0 Ascaling0).
  set (o0 := mk p G0 (repeat (zeros n) 4) (repeat (zeros n) 3) [] None None).
  assert (Hz : length (zeros n) = n) by apply repeat_length.
  exists (reset o0). split; [reflexivity|]. split.
  - unfold reset, o0; views; simpl.
    constructor; simpl; auto.
    + constructor; simpl; auto.
    + apply shape4_intro; auto; now rewrite length_map.
    + split; [reflexivity|]. repeat constructor; assumption.
    + unfold vge. rewrite map2_length. lia.
  - unfold reset, o0; views; simpl.
    rewrite !map_const_zeros, !Hz. repeat split; reflexivity.
Qed.

Lemma init_builds_resting_organoid_witness :
  exists o,
    init Backend.Numpy (Some [[0; 10]; [0; 0]]) [[0; 0]; [1 # 2; 0]]
      [3 # 100; 3 # 100] [-2 # 1; 8] [-50 # 1; -53 # 1] [100; 20]
      [100; 100] [7 # 10; 1] [-60 # 1; -56 # 1] [-40 # 1; -42 # 1]
      [35; 20] [0; -70 # 1] [5; 20] 1 (1 # 10) false 15 35 115
      (65 # 10000) (7 # 1000) (1 # 10000)
    = inr o
    /\ wf o /\ V o = [-60 # 1; -56 # 1].
Proof.
  pose proof (init_builds_resting_organoid Backend.Numpy
                (Some [[0; 10]; [0; 0]]) [[0; 0]; [1 # 2; 0]]
                [3 # 100; 3 # 100] [-2 # 1; 8] [-50 # 1; -53 # 1] [100; 20]
                [100; 100] [7 # 10; 1] [-60 # 1; -56 # 1]
                [-40 # 1; -42 # 1] [35; 20] [0; -70 # 1] [5; 20] 1 (1 # 10)
                false 15 35 115 (65 # 10000) (7 # 1000) (1 # 10000)) as H0.
  cbv zeta in H0.
  destruct H0 as [_ H]; try reflexivity.
  - split; [reflexivity|repeat constructor].
  - destruct (H Backend.HostCPU eq_refl)
      as (o & E & Hwf & _ & _ & HV & _).
    exists o. exact (conj E (conj Hwf HV)).
Defined.

(** ** [step] keeps shapes and parameters *)

(** A [step] call whose arguments fit never changes a parameter and keeps
    every shape, and so does any sequence of such calls: [G] stays N x N,
    the phase variables 4 x N, the traces 3 x N and the spike marks of
    length N. *)
Theorem run_keeps_shapes calls : forall o,
  wf o -> Forall (call_fits (N (par o))) calls ->
  wf (run calls o) /\ par (run calls o) = par o.
Proof.
  induction calls as [|[[dt Iin] nne] calls IH]; intros o H HF.
  - split; [exact H|reflexivity].
  - inversion HF as [|? ? Hcall HF']; subst.
    simpl in Hcall. destruct Hcall as [HI Hn].
    change (run ((dt, Iin, nne) :: calls) o)
      with (run calls (step dt Iin nne o)).
    destruct (IH (step dt Iin nne o)) as [Hwf Hpar].
    + now apply step_wf.
    + now rewrite par_step.
    + split; [exact Hwf|]. now rewrite Hpar, par_step.
Qed.

Lemma run_keeps_shapes_witness :
  wf (run [(1 # 2, Scalar 0, [0%nat; 1%nat]);
           (1 # 2, PerCell [20000; 0], [2%nat; 0%nat])] (spiking true)).
Proof.
  apply (run_keeps_shapes _ (spiking true) (spiking_wf true)).
  repeat constructor.
Defined.

(** ** A call in which no cell is marked *)

Lemma where_all_false m xs ys :
  any m = false -> where_ m xs ys = ys.
Proof.
  revert m xs; induction ys as [|y ys IH]; intros [|b m] [|x xs] H;
    simpl in *; auto.
  destruct b; [discriminate|]. simpl in H. now rewrite IH.
Qed.

Lemma deferred_reset_quiet o :
  any (fired o) = false -> deferred_reset o = o.
Proof.
  intros H. destruct o as [p G0 S0 T0 f isyn idyn]. simpl in H.
  unfold deferred_reset; views.
  rewrite !(where_all_false f) by assumption.
  destruct S0 as [|v [|u [|a_ [|ad S0]]]]; reflexivity.
Qed.

Lemma adjust_Idyn_quiet s :
  any (fired s) = false -> adjust_Idyn s = s.
Proof.
  intros H. destruct s as [p G0 S0 T0 f isyn idyn]. simpl in H.
  unfold adjust_Idyn, set_Idyn; simpl.
  destruct idyn as [idyn|]; simpl; [|reflexivity].
  now rewrite where_all_false.
Qed.


(** When no cell is marked in [fired], a [step] call has nothing to reset
    and nothing to correct: it is the noise injection, the trace decay,
    the integration and the new spike marks.  Even with plasticity enabled
    it leaves [G] exactly as it was (no depression, no potentiation, no
    synaptic scaling and no clipping happen), and the traces only decay. *)
Theorem step_without_spikes dt Iin nne o :
  any (fired o) = false ->
  deferred_reset o = o
  /\ step dt Iin nne o
     = mark_fired (midpoint dt Iin (stdp dt (channel_noise nne o)))
  /\ G (step dt Iin nne o) = G o
  /\ traces (step dt Iin nne o)
     = if do_stdp (par o) then decay_traces dt o (traces o) else traces o.
Proof.
  intros H.
  pose proof (deferred_reset_quiet o H) as E.
  split; [exact E|].
  assert (Hstdp : stdp dt (channel_noise nne o)
                  = if do_stdp (par o)
                    then set_traces (decay_traces dt o (traces o))
                           (channel_noise nne o)
                    else channel_noise nne o).
  { unfold stdp.
    change (do_stdp (par (channel_noise nne o))) with (do_stdp (par o)).
    change (fired (channel_noise nne o)) with (fired o).
    rewrite H. reflexivity. }
  split.
  - unfold step. rewrite E. f_equal. apply adjust_Idyn_quiet.
    change (fired (midpoint dt Iin (stdp dt (channel_noise nne o))))
      with (fired (stdp dt (channel_noise nne o))).
    now rewrite stdp_fired.
  - rewrite step_G, step_traces, E, Hstdp.
    destruct (do_stdp (par o)); split; reflexivity.
Qed.

Lemma step_without_spikes_witness :
  G (step (1 # 2) (PerCell [20000; 0]) [1%nat; 0%nat] resting)
  = [[0; 0]; [1 # 2; 0]]
  /\ deferred_reset resting = resting.
Proof.
  destruct (step_without_spikes (1 # 2) (PerCell [20000; 0])
              [1%nat; 0%nat] resting eq_refl) as (E & _ & HG & _).
  exact (conj HG E).
Defined.

(** ** The plasticity update, entry by entry *)

Lemma shape_depress o M :
  shape (N (par o)) (N (par o)) M ->
  shape (N (par o)) (N (par o)) (depress o M).
Proof.
  intros HM. unfold depress. apply shape_map; [intros; len|assumption].
Qed.

Lemma shape_potentiate o M :
  wf o ->
  shape (N (par o)) (N (par o)) M ->
  shape (N (par o)) (N (par o)) (potentiate o M).
Proof.
  intros H HM. destruct o as [p G0 S0 T0 f isyn idyn].
  destruct H as [_ _ _ HT Hf]; simpl in HT, Hf, HM |- *.
  destruct (shape3_inv _ _ HT) as (tp & tm & ty & -> & Htp & _ & Hty).
  unfold potentiate; views.
  apply shape_map2; [|len|assumption].
  intros [[|] q] x Hx; simpl; len.
Qed.

Lemma nth_depress o M i j :
  wf o -> shape (N (par o)) (N (par o)) M ->
  (i < N (par o))%nat -> (j < N (par o))%nat ->
  nth j (nth i (depress o M) []) 0
  = if nth j (fired o) false
    then nth j (nth i M []) 0
         - Aminus (par o) * nth j (row 1 (traces o)) 0
    else nth j (nth i M []) 0.
Proof.
  intros H HM Hi Hj.
  pose proof (shape_row _ _ M i HM Hi) as Hrow.
  destruct HM as [HM _]. destruct H as [_ _ _ HT Hf].
  destruct (shape3_inv _ _ HT) as (tp & tm & ty & E & _ & Htm & _).
  unfold depress. rewrite E. unfold row; cbn [nth].
  rewrite (nth_map' _ M i []) by lia.
  rewrite nth_where by len.
  destruct (nth j (fired o) false); [|reflexivity].
  unfold vsub. rewrite (nth_map2 _ _ _ _ 0 0) by len.
  unfold vscale. now rewrite (nth_map' _ _ _ 0) by lia.
Qed.

Lemma nth_potentiate o M i j :
  wf o -> shape (N (par o)) (N (par o)) M ->
  (i < N (par o))%nat -> (j < N (par o))%nat ->
  nth j (nth i (potentiate o M) []) 0
  = if nth i (fired o) false
    then nth j (nth i M []) 0
         + Aplus (par o)
           * (nth j (row 0 (traces o)) 0 * nth i (row 2 (traces o)) 0)
    else nth j (nth i M []) 0.
Proof.
  intros H HM Hi Hj.
  pose proof (shape_row _ _ M i HM Hi) as Hrow.
  destruct HM as [HM _]. destruct H as [_ _ _ HT Hf].
  destruct (shape3_inv _ _ HT) as (tp & tm & ty & E & Htp & _ & Hty).
  unfold potentiate. rewrite E. unfold row; cbn [nth].
  rewrite (nth_map2 _ _ _ _ (false, 0) []) by len.
  rewrite combine_nth by lia. cbn [fst snd].
  destruct (nth i (fired o) false); [|reflexivity].
  unfold vadd. rewrite (nth_map2 _ _ _ _ 0 0) by len.
  unfold vscale. rewrite (nth_map' _ _ _ 0) by len.
  unfold vtimes. now rewrite (nth_map' _ _ _ 0) by lia.
Qed.

(** In a [step] call with plasticity enabled and some cell marked fired,
    the new conductance from cell [j] onto cell [i] is obtained from the
    old one by, in this order: subtracting [Aminus * trace_minus[j]] when
    the presynaptic cell [j] fired; adding
    [Aplus * (trace_plus[j] * trace_y[i])] when the postsynaptic cell [i]
    fired; subtracting [(trace_y[i] - 0.5) * dt * Ascaling] when
    [Vn[j] > Vt[j]]; and replacing a negative result by zero.  The traces
    are those at the start of the call. *)
Theorem step_plasticity_entry dt Iin nne o i j :
  wf o -> do_stdp (par o) = true -> any (fired o) = true ->
  (i < N (par o))%nat -> (j < N (par o))%nat ->
  let g := nth j (nth i (G o) []) 0 in
  let g1 := if nth j (fired o) false
            then g - Aminus (par o) * nth j (row 1 (traces o)) 0
            else g in
  let g2 := if nth i (fired o) false
            then g1 + Aplus (par o)
                      * (nth j (row 0 (traces o)) 0
                         * nth i (row 2 (traces o)) 0)
            else g1 in
  let g3 := if Qle_bool (nth j (Vn (par o)) 0) (nth j (Vt (par o)) 0)
            then g2
            else g2 - (nth i (row 2 (traces o)) 0 - (1 # 2)) * dt
                      * Ascaling (par o) in
  nth j (nth i (G (step dt Iin nne o)) []) 0 = clip0 g3.
Proof.
  intros H Hs Hf Hi Hj g g1 g2 g3.
  rewrite step_G_stdp by assumption. rewrite Hf.
  rewrite nth_clip. f_equal.
  pose proof (wf_G _ H) as HG.
  rewrite nth_scaling; auto.
  2:{ apply shape_potentiate; auto. now apply shape_depress. }
  rewrite nth_potentiate; auto.
  2:{ now apply shape_depress. }
  rewrite nth_depress; auto.
Qed.

Lemma step_plasticity_entry_witness :
  nth 0 (nth 1 (G (step (1 # 2) (Scalar 0) [0%nat; 0%nat] depressed)) []) 0
  = clip0 ((1 # 2) - (7 # 1000) * 100
           - (0 - (1 # 2)) * (1 # 2) * (1 # 10000)).
Proof.
  apply (step_plasticity_entry (1 # 2) (Scalar 0) [0%nat; 0%nat] depressed
           1%nat 0%nat);
    try reflexivity; try (simpl; lia).
  constructor; simpl.
  - constructor; reflexivity.
  - split; [reflexivity|repeat constructor].
  - split; [reflexivity|repeat constructor].
  - split; [reflexivity|repeat constructor].
  - reflexivity.
Defined.

Lemma nth_decay_traces dt o T r j :
  length (tau_stdp (par o)) = 3%nat -> length T = 3%nat ->
  length (nth r T []) = N (par o) ->
  (r < 3)%nat -> (j < N (par o))%nat ->
  nth j (nth r (decay_traces dt o T) []) 0
  = nth j (nth r T []) 0 * (1 - dt / nth r (tau_stdp (par o)) 0).
Proof.
  intros Htau HT Hrow Hr Hj. unfold decay_traces.
  rewrite (nth_map2 _ _ _ _ 0 []) by lia.
  unfold vtimes. now rewrite (nth_map' _ _ _ 0) by lia.
Qed.

Lemma nth_bump_traces o T r j :
  length (fired o) = N (par o) -> length T = 3%nat ->
  length (nth r T []) = N (par o) ->
  (r < 3)%nat -> (j < N (par o))%nat ->
  nth j (nth r (bump_traces o T) []) 0
  = if nth j (fired o) false
    then nth j (nth r T []) 0 + 1
    else nth j (nth r T []) 0.
Proof.
  intros Hf HT Hrow Hr Hj. unfold bump_traces.
  rewrite (nth_map' _ _ _ []) by lia.
  rewrite nth_where by len.
  destruct (nth j (fired o) false); [|reflexivity].
  unfold vplus. now rewrite (nth_map' _ _ _ 0) by lia.
Qed.

Lemma step_traces_stdp dt Iin nne o :
  do_stdp (par o) = true ->
  traces (step dt Iin nne o)
  = decay_traces dt o
      (if any (fired o) then bump_traces o (traces o) else traces o).
Proof.
  intros Hs. rewrite step_traces. unfold stdp.
  change (do_stdp (par (channel_noise nne (deferred_reset o))))
    with (do_stdp (par o)).
  change (fired (channel_noise nne (deferred_reset o))) with (fired o).
  rewrite Hs. destruct (any (fired o)); reflexivity.
Qed.

(** After a [step] call with plasticity enabled, each of the three traces
    of cell [j] is its old value, raised by 1 when the cell was marked
    fired, times [1 - dt / tau] for the time constant of that trace; the
    decay happens whether or not any cell fired. *)
Theorem step_trace_entry dt Iin nne o r j :
  wf o -> do_stdp (par o) = true ->
  (r < 3)%nat -> (j < N (par o))%nat ->
  nth j (nth r (traces (step dt Iin nne o)) []) 0
  = (if nth j (fired o) false
     then nth j (nth r (traces o) []) 0 + 1
     else nth j (nth r (traces o) []) 0)
    * (1 - dt / nth r (tau_stdp (par o)) 0).
Proof.
  intros H Hs Hr Hj.
  rewrite step_traces_stdp by assumption.
  destruct H as [Hp _ _ HT Hf]. destruct Hp.
  destruct (shape3_inv _ _ HT) as (tp & tm & ty & E & Htp & Htm & Hty).
  assert (HT3 : length (traces o) = 3%nat) by now rewrite E.
  assert (Hrow : length (nth r (traces o) []) = N (par o)).
  { rewrite E. destruct r as [|[|[|r]]]; simpl; auto; lia. }
  destruct (any (fired o)) eqn:Hany.
  - rewrite nth_decay_traces; auto.
    + now rewrite nth_bump_traces.
    + unfold bump_traces. now rewrite length_map.
    + unfold bump_traces. rewrite (nth_map' _ _ _ []) by lia.
      now rewrite where_length.
  - rewrite nth_decay_traces; auto.
    now rewrite (any_false_nth _ Hany).
Qed.

Lemma step_trace_entry_witness :
  nth 0 (nth 1 (traces (step (1 # 2) (Scalar 0) [0%nat; 0%nat] depressed))
           []) 0
  = (100 + 1) * (1 - (1 # 2) / 35).
Proof.
  apply (step_trace_entry (1 # 2) (Scalar 0) [0%nat; 0%nat] depressed
           1%nat 0%nat);
    try reflexivity; try (simpl; lia).
  constructor; simpl.
  - constructor; reflexivity.
  - split; [reflexivity|repeat constructor].
  - split; [reflexivity|repeat constructor].
  - split; [reflexivity|repeat constructor].
  - reflexivity.
Defined.

(** ** The stored currents and the voltage step *)

Lemma veq_nth x y i : veq x y -> nth i x 0 == nth i y 0.
Proof.
  intros H. revert i. induction H as [|a b x y Hab _ IH]; intros [|i];
    simpl; auto; reflexivity.
Qed.

Lemma meq_row X Y i : meq X Y -> veq (row i X) (row i Y).
Proof.
  intros H. unfold row. revert i.
  induction H as [|x y X Y Hxy _ IH]; intros [|i]; simpl; auto;
    constructor.
Qed.

Lemma VUAdot_row0 Iin s :
  exists idyn rest,
    Idyn (snd (VUAdot Iin s)) = Some idyn
    /\ fst (VUAdot Iin s)
       = vdiv (vadd idyn
                 (synaptic_current (G s) (A s) (Vn (par s)) (V s)))
           (C (par s))
         :: rest.
Proof. eexists _, _. split; reflexivity. Qed.

Lemma row0_update (v k : list Q) (S0 K : list (list Q)) dt :
  row 0 (madd (v :: S0) (mtimes (k :: K) dt)) = vadd v (vtimes k dt).
Proof. reflexivity. Qed.

Lemma midpoint_VUA dt Iin s :
  VUA (midpoint dt Iin s)
  = madd (madd (VUA s) (mover (mtimes (fst (VUAdot Iin s)) dt) 2))
      (msub
         (mtimes
            (fst (VUAdot Iin
                    (set_VUA
                       (madd (VUA s)
                          (mover (mtimes (fst (VUAdot Iin s)) dt) 2)) s)))
            dt)
         (mover (mtimes (fst (VUAdot Iin s)) dt) 2)).
Proof. destruct s; reflexivity. Qed.

(** The integration on a well-shaped state: the stored currents are those
    of the second derivative evaluation and balance the voltage step. *)
Lemma midpoint_balance dt Iin s0 :
  wf s0 -> wf_current (N (par s0)) Iin ->
  let k1 := fst (VUAdot Iin s0) in
  let half := set_VUA (madd (VUA s0) (mover (mtimes k1 dt) 2)) s0 in
  exists idyn,
    Isyn (midpoint dt Iin s0)
    = Some (synaptic_current (G half) (A half) (Vn (par s0)) (V half))
    /\ Idyn (midpoint dt Iin s0) = Some idyn
    /\ forall i, (i < N (par s0))%nat -> ~ nth i (C (par s0)) 0 == 0 ->
         (nth i (V (midpoint dt Iin s0)) 0 - nth i (V s0) 0)
         * nth i (C (par s0)) 0
         == dt * (nth i idyn 0
                  + nth i (synaptic_current (G half) (A half)
                             (Vn (par s0)) (V half)) 0).
Proof.
  intros H0 HI k1 half.
  assert (Hk1 : shape 4 (N (par s0)) k1) by now apply VUAdot_shape.
  assert (Hhalf : wf half).
  { apply set_VUA_wf; [assumption|].
    apply shape_madd; [apply H0|]. now apply shape_mover, shape_mtimes. }
  assert (Hk2 : shape 4 (N (par s0)) (fst (VUAdot Iin half)))
    by now apply (VUAdot_shape Iin half).
  assert (Hmeq : meq (VUA (midpoint dt Iin s0))
                   (madd (VUA s0) (mtimes (fst (VUAdot Iin half)) dt))).
  { rewrite midpoint_VUA. fold k1. fold half.
    apply (midpoint_update dt 4 (N (par s0))); auto. apply H0. }
  destruct (VUAdot_row0 Iin half) as (idyn & rest & EI & Ek).
  exists idyn.
  split; [destruct s0; reflexivity|].
  split; [destruct s0; exact EI|].
  intros i Hi HC.
  apply (meq_row _ _ 0%nat) in Hmeq.
  apply (veq_nth _ _ i) in Hmeq.
  fold (V (midpoint dt Iin s0)) in Hmeq.
  rewrite Ek in Hmeq. rewrite Ek in Hk2.
  destruct (shape4_inv _ _ (wf_VUA _ H0)) as (v & u & a_ & ad & E & Hv & _).
  assert (EV : V s0 = v) by (unfold V, row; now rewrite E).
  rewrite E, row0_update in Hmeq. rewrite EV.
  pose proof (wf_C _ (wf_par _ H0)) as HCl.
  destruct Hk2 as [_ Hrows]. apply Forall_inv in Hrows.
  change (par half) with (par s0) in *.
  remember (synaptic_current (G half) (A half) (Vn (par s0)) (V half))
    as isyn eqn:Eisyn.
  clear Eisyn EI Ek Hhalf Hk1. clearbody half k1.
  unfold vdiv, vadd in Hrows. rewrite !map2_length in Hrows.
  assert (Hlen : (i < length (map2 Qdiv (map2 Qplus idyn isyn)
                                (C (par s0))))%nat)
    by (rewrite !map2_length; lia).
  unfold vadd at 1 in Hmeq.
  rewrite (nth_map2 _ _ _ _ 0 0) in Hmeq
    by (try (unfold vtimes; rewrite length_map); assumption || lia).
  unfold vtimes in Hmeq.
  rewrite (nth_map' _ _ _ 0) in Hmeq by exact Hlen.
  unfold vdiv, vadd in Hmeq.
  rewrite (nth_map2 _ _ _ _ 0 0) in Hmeq by (rewrite ?map2_length; lia).
  rewrite (nth_map2 _ _ _ _ 0 0) in Hmeq by lia.
  rewrite Hmeq. field. exact HC.
Qed.

Lemma step_stored_currents dt Iin nne o :
  Isyn (step dt Iin nne o)
  = Isyn (midpoint dt Iin (stdp dt (channel_noise nne (deferred_reset o))))
  /\ Idyn (step dt Iin nne o)
     = option_map
         (fun idyn =>
            where_ (fired o)
              (vadd idyn (vmul (C (par o)) (vsub (c (par o)) (Vp (par o)))))
              idyn)
         (Idyn (midpoint dt Iin
                  (stdp dt (channel_noise nne (deferred_reset o))))).
Proof.
  unfold step.
  set (s0 := stdp dt (channel_noise nne (deferred_reset o))).
  assert (Hp : par s0 = par o) by (unfold s0; now rewrite par_stdp).
  assert (Hf : fired s0 = fired o) by (unfold s0; now rewrite stdp_fired).
  clearbody s0. rewrite <- Hp, <- Hf.
  destruct s0; split; reflexivity.
Qed.

(** The currents that a [step] call leaves in [Isyn] and [Idyn] are those
    of its second derivative evaluation, at the half-advanced state, and
    they account for the voltage step of the integration: for every cell
    with non-zero capacitance, [C] times the change of [V] over the
    integration equals [dt] times the stored total current (before the
    correction that [step] then applies to [Idyn] at the cells marked
    fired).  In exact arithmetic. *)
Theorem step_currents_balance_voltage dt Iin nne o :
  wf o -> wf_current (N (par o)) Iin -> length nne = N (par o) ->
  let s0 := stdp dt (channel_noise nne (deferred_reset o)) in
  let k1 := fst (VUAdot Iin s0) in
  let half := set_VUA (madd (VUA s0) (mover (mtimes k1 dt) 2)) s0 in
  let s1 := midpoint dt Iin s0 in
  exists isyn idyn,
    isyn = synaptic_current (G half) (A half) (Vn (par o)) (V half)
    /\ Isyn s1 = Some isyn /\ Idyn s1 = Some idyn
    /\ Isyn (step dt Iin nne o) = Some isyn
    /\ Idyn (step dt Iin nne o)
       = Some (where_ (fired o)
                 (vadd idyn
                    (vmul (C (par o)) (vsub (c (par o)) (Vp (par o)))))
                 idyn)
    /\ forall i, (i < N (par o))%nat -> ~ nth i (C (par o)) 0 == 0 ->
         (nth i (V s1) 0 - nth i (V s0) 0) * nth i (C (par o)) 0
         == dt * (nth i idyn 0 + nth i isyn 0).
Proof.
  intros H HI Hn s0 k1 half s1.
  assert (H0 : wf s0).
  { apply stdp_wf, channel_noise_wf; [now apply deferred_reset_wf|].
    exact Hn. }
  assert (Hp : par s0 = par o) by (subst s0; now rewrite par_stdp).
  destruct (step_stored_currents dt Iin nne o) as [E1 E2].
  fold s0 in E1, E2. fold s1 in E1, E2.
  rewrite E1, E2. clear E1 E2.
  subst s1 half k1. clearbody s0. rewrite <- Hp in *.
  destruct (midpoint_balance dt Iin s0 H0 HI) as (idyn & EIs & EId & Hbal).
  eexists _, idyn.
  split; [reflexivity|]. split; [exact EIs|]. split; [exact EId|].
  split; [exact EIs|]. split; [now rewrite EId|exact Hbal].
Qed.

Lemma step_currents_balance_voltage_witness :
  exists isyn idyn,
    Isyn (step (1 # 2) (PerCell [20000; 0]) [0%nat; 1%nat] (spiking true))
    = Some isyn
    /\ Idyn (midpoint (1 # 2) (PerCell [20000; 0]) ready) = Some idyn
    /\ (nth 1 (V (midpoint (1 # 2) (PerCell [20000; 0]) ready)) 0
        - nth 1 (V ready) 0) * 100
       == (1 # 2) * (nth 1 idyn 0 + nth 1 isyn 0).
Proof.
  destruct (step_currents_balance_voltage (1 # 2) (PerCell [20000; 0])
              [0%nat; 1%nat] (spiking true) (spiking_wf true) eq_refl
              eq_refl) as (isyn & idyn & _ & _ & EI & ES & _ & Hbal).
  exists isyn, idyn. split; [exact ES|]. split; [exact EI|].
  apply (Hbal 1%nat); [simpl; lia|discriminate].
Defined.

(** ** Rest is a fixed point *)

Lemma veq_refl x : veq x x.
Proof. induction x; constructor; [reflexivity|assumption]. Qed.



Lemma vzero_map (f : Q -> Q) x :
  (forall a, a == 0 -> f a == 0) -> vzero x -> vzero (map f x).
Proof.
  intros Hf. induction 1 as [|a x Ha _ IH]; simpl; constructor;
    [now apply Hf|exact IH].
Qed.


Lemma vzero_map2_r (f : Q -> Q -> Q) x y :
  (forall a b, b == 0 -> f a b == 0) -> vzero y -> vzero (map2 f x y).
Proof.
  intros Hf H. revert x.
  induction H as [|b y Hb _ IH]; intros [|a x]; simpl; constructor;
    [now apply Hf|apply IH].
Qed.


Lemma veq_sub_zero x y : veq x y -> vzero (vsub x y).
Proof.
  induction 1 as [|a b x y Hab _ IH]; simpl; constructor; auto.
  rewrite Hab. ring.
Qed.

Lemma vsum_zero x : vzero x -> vsum x == 0.
Proof.
  induction 1 as [|a x Ha _ IH]; simpl; [reflexivity|].
  rewrite Ha, IH. ring.
Qed.


Ltac zero_op :=
  let a := fresh "a" in
  let b := fresh "b" in
  let Ha := fresh "Ha" in
  let Hb := fresh "Hb" in
  first [ intros a b Ha Hb; rewrite Ha, Hb; unfold Qdiv; ring
        | intros a b Ha; rewrite Ha; unfold Qdiv; ring
        | intros a Ha; rewrite Ha; unfold Qdiv; ring ].












(** ** A fresh medium, and immersion *)

(** [ChargedMedium.__init__] needs two grid coordinates on each axis to
    take the spacing and raises [IndexError] otherwise.  The medium it
    builds carries no charge, on a field of one entry per grid point, and
    has no organoid yet: [step] and [probe_at] raise [AttributeError] on
    it. *)
Theorem medium_init_spec sqrtQ gaussian_filter Xgrid Ygrid D0 eps_rel :
  ((length Xgrid < 2)%nat \/ (length Ygrid < 2)%nat ->
   ChargedMedium.init sqrtQ Xgrid Ygrid D0 eps_rel = inl Backend.IndexError)
  /\ ((2 <= length Xgrid)%nat -> (2 <= length Ygrid)%nat ->
      exists m,
        ChargedMedium.init sqrtQ Xgrid Ygrid D0 eps_rel = inr m
        /\ ChargedMedium.X m = Xgrid /\ ChargedMedium.Y m = Ygrid
        /\ ChargedMedium.D m = D0
        /\ ChargedMedium.dx m = nth 1 Xgrid 0 - nth 0 Xgrid 0
        /\ ChargedMedium.dy m = nth 1 Ygrid 0 - nth 0 Ygrid 0
        /\ shape (length Xgrid) (length Ygrid) (ChargedMedium.rho m)
        /\ Forall (Forall (fun q => q = 0)) (ChargedMedium.rho m)
        /\ (forall dt organoid,
              ChargedMedium.step sqrtQ gaussian_filter dt organoid m
              = inl Backend.AttributeError)
        /\ (forall points organoid,
              ChargedMedium.probe_at sqrtQ points organoid m
              = inl Backend.AttributeError)).
Proof.
  split.
  - intros H. unfold ChargedMedium.init.
    destruct Xgrid as [|x0 [|x1 Xs]]; try reflexivity.
    destruct Ygrid as [|y0 [|y1 Ys]]; try reflexivity.
    simpl in H. lia.
  - intros HX HY.
    destruct Xgrid as [|x0 [|x1 Xs]]; simpl in HX; try lia.
    destruct Ygrid as [|y0 [|y1 Ys]]; simpl in HY; try lia.
    eexists. split; [reflexivity|].
    cbn [ChargedMedium.X ChargedMedium.Y ChargedMedium.D ChargedMedium.dx
         ChargedMedium.dy ChargedMedium.rho nth].
    repeat (split; [reflexivity|]).
    assert (Hrow : forall (Z : list Q),
              length (map (fun _ : Q => 0) Z) = length Z
              /\ Forall (fun q => q = 0) (map (fun _ : Q => 0) Z)).
    { intros Z. split; [apply length_map|].
      induction Z; simpl; constructor; auto. }
    split; [|split; [|split]].
    + split; [now rewrite length_map|].
      apply Forall_forall. intros r Hr.
      apply in_map_iff in Hr. destruct Hr as (? & <- & _). apply Hrow.
    + apply Forall_forall. intros r Hr.
      apply in_map_iff in Hr. destruct Hr as (? & <- & _). apply Hrow.
    + reflexivity.
    + reflexivity.
Qed.

Lemma medium_init_spec_witness :
  ChargedMedium.init sqrt_floor [5] [0; 10; 20] 2 80
  = inl Backend.IndexError
  /\ exists m,
       still_medium = inr m
       /\ ChargedMedium.step sqrt_floor smooth_filter (1 # 2) stepped m
          = inl Backend.AttributeError.
Proof.
  split.
  - apply (medium_init_spec sqrt_floor smooth_filter [5] [0; 10; 20] 2 80).
    left. simpl. lia.
  - destruct (medium_init_spec sqrt_floor smooth_filter [0; 10; 20]
                [0; 10; 20] 0 80) as [_ H].
    destruct H as (m & E & _ & _ & _ & _ & _ & _ & _ & Hstep & _);
      [simpl; lia|simpl; lia|].
    exists m. split; [exact E|apply Hstep].
Defined.


(** What [step] does on an immersed medium, whatever the diffusion
    constant: it succeeds, the new field is the filtered scatter-add, and
    the snapshot is renewed. *)
Lemma step_immersed sqrtQ gaussian_filter dt organoid xy m vprev xs ys :
  wf organoid ->
  immersed sqrtQ (N (par organoid)) xy m vprev xs ys ->
  exists rho1 warned,
    ChargedMedium.scatter_add
      (ChargedMedium.charge_of organoid vprev m) xs ys (ChargedMedium.rho m)
    = inr rho1
    /\ shape (length (ChargedMedium.X m)) (length (ChargedMedium.Y m)) rho1
    /\ grid_sum rho1
       == grid_sum (ChargedMedium.rho m)
          + vsum (ChargedMedium.charge_of organoid vprev m)
    /\ ChargedMedium.step sqrtQ gaussian_filter dt organoid m
       = inr (ChargedMedium.set_Vprev (V organoid)
                (ChargedMedium.set_rho
                   (gaussian_filter
                      (fst (ChargedMedium.sigma m) * sqrtQ dt,
                       snd (ChargedMedium.sigma m) * sqrtQ dt) rho1) m),
              warned).
Proof.
  intros Hwf [Horg HVp Hng Hrho Hsig Hvl Hxl Hyl Hxs Hys _ _].
  pose proof (V_length organoid Hwf) as HV.
  pose proof (wf_C _ (wf_par _ Hwf)) as HC.
  assert (Hcl : length (ChargedMedium.charge_of organoid vprev m)
                = N (par organoid)).
  { unfold ChargedMedium.charge_of. len. }
  destruct (scatter_add_spec (length (ChargedMedium.X m))
              (length (ChargedMedium.Y m))
              (ChargedMedium.charge_of organoid vprev m) xs ys
              (ChargedMedium.rho m))
    as (rho1 & E & Hshape & _ & Hsum); try lia; auto.
  exists rho1. eexists. split; [exact E|]. split; [exact Hshape|].
  split; [exact Hsum|].
  unfold ChargedMedium.step. rewrite Horg, HVp, Hng. simpl.
  rewrite E. reflexivity.
Qed.



(** ** Charge conservation over many steps *)

Lemma last_cons {T : Type} (x d : T) (l : list T) :
  last (x :: l) d = last l x.
Proof.
  revert x d. induction l as [|y l IH]; intros x d; [reflexivity|].
  change (last (x :: y :: l) d) with (last (y :: l) d).
  rewrite (IH y d). symmetry. apply IH.
Qed.

Lemma charge_telescopes (area : Q) n : forall cap v0 v1 v2 : list Q,
  length cap = n -> length v0 = n -> length v1 = n -> length v2 = n ->
  vsum (vover (vmul cap (vsub v0 v1)) area)
  + vsum (vover (vmul cap (vsub v1 v2)) area)
  == vsum (vover (vmul cap (vsub v0 v2)) area).
Proof.
  induction n as [|n IH]; intros [|q cap] [|x v0] [|y v1] [|z v2] Hc H0 H1
    H2; simpl in Hc, H0, H1, H2; try discriminate; simpl.
  - ring.
  - change (q * (x - y) / area
            + vsum (vover (vmul cap (vsub v0 v1)) area)
            + (q * (y - z) / area
               + vsum (vover (vmul cap (vsub v1 v2)) area))
            == q * (x - z) / area
               + vsum (vover (vmul cap (vsub v0 v2)) area)).
    rewrite <- (IH cap v0 v1 v2) by lia. unfold Qdiv. ring.
Qed.

Lemma charge_of_nothing (area : Q) (cap v : list Q) :
  vsum (vover (vmul cap (vsub v v)) area) == 0.
Proof.
  apply vsum_zero. unfold vover. apply vzero_map; [zero_op|].
  unfold vmul. apply vzero_map2_r; [zero_op|].
  apply veq_sub_zero, veq_refl.
Qed.

Lemma last_voltage_length o0 (calls : list (Q * Organoid.t)) :
  Forall (fun call => later_state o0 (snd call)) calls ->
  forall v, length v = N (par o0) ->
    length (last (map (fun call => V (snd call)) calls) v) = N (par o0).
Proof.
  induction 1 as [|[dt o] calls [Wo Po] _ IH]; intros v Hv; [exact Hv|].
  cbn [map snd]. rewrite last_cons. apply IH.
  simpl in Wo, Po. rewrite <- Po. now apply V_length.
Qed.

Section ManySteps.

Variable sqrtQ : Q -> Q.
Variable gaussian_filter : Q * Q -> mat -> mat.
Hypothesis sqrt_zero : sqrtQ 0 == 0.
Hypothesis filter_zero_width :
  forall (s : Q * Q) (M : mat),
    fst s == 0 -> snd s == 0 -> gaussian_filter s M = M.

Lemma step_no_diffusion dt o xy m vprev xs ys :
  wf o ->
  immersed sqrtQ (N (par o)) xy m vprev xs ys ->
  ChargedMedium.D m = 0 ->
  exists m',
    ChargedMedium.step sqrtQ gaussian_filter dt o m = inr (m', true)
    /\ immersed sqrtQ (N (par o)) xy m' (V o) xs ys
    /\ ChargedMedium.D m' = 0
    /\ ChargedMedium.dx m' = ChargedMedium.dx m
    /\ ChargedMedium.dy m' = ChargedMedium.dy m
    /\ grid_sum (ChargedMedium.rho m')
       == grid_sum (ChargedMedium.rho m)
          + vsum (ChargedMedium.charge_of o vprev m).
Proof.
  intros Wo Him HD.
  destruct (step_immersed sqrtQ gaussian_filter dt o xy m vprev xs ys Wo Him)
    as (rho1 & warned & _ & Hshape & Hsum & Es).
  destruct Him as [Horg HVp Hng Hrho Hsig Hvl Hxl Hyl Hxs Hys Hnx Hny].
  assert (Hw1 : fst (ChargedMedium.sigma m) * sqrtQ dt == 0).
  { rewrite Hsig, HD. simpl. now apply no_diffusion_width. }
  assert (Hw2 : snd (ChargedMedium.sigma m) * sqrtQ dt == 0).
  { rewrite Hsig, HD. simpl. now apply no_diffusion_width. }
  assert (Ew : warned = true).
  { unfold ChargedMedium.step in Es. rewrite Horg, HVp, Hng in Es.
    simpl in Es.
    destruct (ChargedMedium.scatter_add _ _ _ _); [discriminate|].
    injection Es as _ <-. cbn [fst snd].
    now rewrite (no_diffusion_warns _ Hw1). }
  rewrite (filter_zero_width
             (fst (ChargedMedium.sigma m) * sqrtQ dt,
              snd (ChargedMedium.sigma m) * sqrtQ dt) rho1 Hw1 Hw2) in Es.
  subst warned.
  eexists. split; [exact Es|].
  split; [|repeat split; auto].
  constructor; simpl; auto. now apply V_length.
Qed.

(** With [D = 0], any sequence of [step] calls of an immersed medium
    succeeds, and the sum of the field over the grid grows by the charge
    between the voltage snapshot at the start and the voltage at the last
    call, [sum_i C_i * (Vprev_i - Vlast_i) / (dx * dy)]: the increments of
    the intermediate calls telescope.  In exact arithmetic. *)
Theorem medium_run_conserves_charge o0 xy calls : forall m vprev xs ys,
  immersed sqrtQ (N (par o0)) xy m vprev xs ys ->
  ChargedMedium.D m = 0 ->
  Forall (fun call => later_state o0 (snd call)) calls ->
  let vlast := last (map (fun call => V (snd call)) calls) vprev in
  exists m',
    medium_run sqrtQ gaussian_filter calls m = inr m'
    /\ ChargedMedium.Vprev m' = Some vlast
    /\ grid_sum (ChargedMedium.rho m')
       == grid_sum (ChargedMedium.rho m)
          + vsum (vover (vmul (C (par o0)) (vsub vprev vlast))
                    (ChargedMedium.dx m * ChargedMedium.dy m)).
Proof.
  induction calls as [|[dt o] calls IH]; intros m vprev xs ys Him HD HF.
  - simpl. exists m. split; [reflexivity|].
    split; [apply Him|]. rewrite charge_of_nothing. ring.
  - inversion HF as [|? ? [Wo Po] HF']; subst. simpl in Wo, Po.
    assert (Him0 : immersed sqrtQ (N (par o)) xy m vprev xs ys)
      by (now rewrite Po).
    destruct (step_no_diffusion dt o xy m vprev xs ys Wo Him0 HD)
      as (m1 & Es & Him1 & HD1 & Edx & Edy & Hsum).
    rewrite Po in Him1.
    destruct (IH m1 (V o) xs ys Him1 HD1 HF') as (m' & Er & EV & Hsum').
    cbn zeta. cbn [map snd].
    rewrite last_cons.
    set (vlast := last (map (fun call => V (snd call)) calls) (V o)) in *.
    exists m'. split; [|split; [exact EV|]].
    + simpl. rewrite Es. exact Er.
    + rewrite Hsum', Hsum, Edx, Edy.
      unfold ChargedMedium.charge_of. rewrite Po.
      rewrite <- Qplus_assoc.
      assert (Hl : length vlast = N (par o0)).
      { subst vlast. apply last_voltage_length; [exact HF'|].
        rewrite <- Po. now apply V_length. }
      rewrite (charge_telescopes _ (N (par o0))); try reflexivity.
      * rewrite <- Po. apply (wf_C _ (wf_par _ Wo)).
      * apply Him.
      * rewrite <- Po. now apply V_length.
      * exact Hl.
Qed.

End ManySteps.

Lemma medium_run_conserves_charge_witness :
  exists m m',
    still_immersed = inr m
    /\ medium_run sqrt_floor smooth_filter
         [(1 # 2, stepped); (1, spiking false)] m
       = inr m'
    /\ ChargedMedium.Vprev m' = Some (V (spiking false)).
Proof.
  unfold still_immersed, still_medium.
  destruct (ChargedMedium.init sqrt_floor [0; 10; 20] [0; 10; 20] 0 80)
    as [e|m0] eqn:E0; [discriminate E0|].
  assert (Hxy : shape 2 (N (par (spiking false))) [[0; 10]; [0; 0]])
    by (split; [reflexivity|repeat constructor]).
  destruct (immerse_immersed sqrt_floor _ _ _ _ (spiking false)
              [[0; 10]; [0; 0]] m0 (spiking_wf false) eq_refl Hxy E0)
    as (m1 & gx & gy & E1 & HD & Him).
  unfold ChargedMedium.bind. rewrite E1.
  destruct (medium_run_conserves_charge sqrt_floor smooth_filter
              sqrt_floor_zero smooth_filter_zero_width (spiking false)
              [[0; 10]; [0; 0]] [(1 # 2, stepped); (1, spiking false)]
              m1 (V (spiking false)) gx gy Him HD)
    as (m' & Er & EV & _).
  - constructor; [split; [exact stepped_wf|reflexivity]|].
    constructor; [split; [apply spiking_wf|reflexivity]|constructor].
  - cbn [map snd] in EV. rewrite !last_cons in EV.
    exists m1, m'. split; [reflexivity|]. split; [exact Er|exact EV].
Defined.

(** ** The batches of [_gen_frame_events] *)

Lemma frames_from_spec dt events : forall T evs,
  let (frames, pending) := frames_from dt T evs events in
  map snd (concat frames ++ pending) = map snd evs ++ map snd events
  /\ (evs <> [] \/ events <> [] -> pending <> [])
  /\ (length frames <= length events)%nat
  /\ (Forall (fun e => fst e <= T) events -> frames = []).
Proof.
  induction events as [|[time cell] rest IH]; intros T evs.
  - simpl. rewrite app_nil_r.
    split; [reflexivity|]. split; [intros [H|H]; congruence|].
    split; [lia|reflexivity].
  - cbn [frames_from].
    destruct (Qle_bool time T) eqn:E.
    + specialize (IH T (evs ++ [(T - time, cell)])).
      destruct (frames_from dt T (evs ++ [(T - time, cell)]) rest)
        as [frames pending].
      destruct IH as (Hc & Hp & Hn & Hq).
      split; [|split; [|split]].
      * rewrite Hc, map_app, <- app_assoc. reflexivity.
      * intros _. apply Hp. left. now destruct evs.
      * simpl. lia.
      * intros HF. inversion HF; subst. now apply Hq.
    + specialize (IH (T + dt) [(T + dt - time, cell)]).
      destruct (frames_from dt (T + dt) [(T + dt - time, cell)] rest)
        as [frames pending].
      destruct IH as (Hc & Hp & Hn & Hq).
      split; [|split; [|split]].
      * cbn [concat]. rewrite <- app_assoc, map_app, Hc. reflexivity.
      * intros _. apply Hp. left. discriminate.
      * simpl. lia.
      * intros HF. inversion HF as [|? ? Ht _]; subst. simpl in Ht.
        apply Qle_bool_iff in Ht. congruence.
Qed.

(** [_gen_frame_events] yields the cells of the events in their order,
    but never all of them: the batch being collected when the events run
    out is not yielded, so the cells yielded are a prefix of the cells
    given that, for a non-empty input, stops short of the last event.  It
    yields at most one batch per event, and nothing at all when no event
    is later than [dt]. *)
Theorem gen_frame_events_drops_last_batch dt events :
  (exists k,
     map snd (concat (_gen_frame_events dt events))
     = firstn k (map snd events)
     /\ (k <= length events)%nat
     /\ (events <> [] -> (k < length events)%nat))
  /\ (length (_gen_frame_events dt events) <= length events)%nat
  /\ (Forall (fun e => fst e <= dt) events ->
      _gen_frame_events dt events = []).
Proof.
  unfold _gen_frame_events.
  pose proof (frames_from_spec dt events dt []) as H.
  destruct (frames_from dt dt [] events) as [frames pending].
  destruct H as (Hc & Hp & Hn & Hq). cbn [fst].
  simpl in Hc.
  assert (Hlen : (length (concat frames) + length pending
                  = length events)%nat).
  { apply (f_equal (@length nat)) in Hc.
    rewrite !length_map, length_app in Hc. exact Hc. }
  split; [|split; assumption].
  exists (length (concat frames)).
  split; [|split].
  - rewrite <- Hc, map_app.
    rewrite <- (length_map snd (concat frames)).
    now rewrite firstn_app, Nat.sub_diag, firstn_O, app_nil_r, firstn_all.
  - lia.
  - intros Hne. specialize (Hp (or_intror Hne)).
    destruct pending; [congruence|simpl in Hlen; lia].
Qed.
